(** * UtilityMethods (docs/Method.js): a shallow embedding and its properties

    The class [UtilityMethods] of [docs/Method.js] is a bag of independent
    helpers.  This development embeds the four that the specification talks
    about: [truncateText], [generateUniqueId], [shuffleArray] and the
    timeout-wrapped request [fetchWithTimeout]; and, after them,
    [validateEmail], [getTimeElapsed], [isEmptyObject], [groupBy] and
    [generateSlug].  [formatPrice] is all [Intl.NumberFormat] and is left
    out.

    Conventions of the embedding.
    - A JavaScript string is the list of its UTF-16 code units, so that
      [.length], [substring] and [charAt] count what the engine counts.
    - A JavaScript number that the code uses as a length, an index or a delay
      is an integer of [Z]; the results of [Math.random()] are rationals of
      [Q] within the unit interval (doubles idealised: the product and
      [Math.floor] are exact, where the engine rounds the product first;
      the proofs use nothing of an index but its range, which the rounding
      keeps, and the draw it is computed from).
    - Objects that the code shares or allocates (arrays, error objects,
      abort controllers) live in explicit stores and are named by locations.
    - A parameter with a default value is an [option]: [None] is the
      argument left out (or [undefined]). *)

From Stdlib Require Import QArith Qround.
From stdpp Require Import gmap strings list fin_maps pretty.

Local Open Scope Z_scope.

(** ** JavaScript strings *)

Module JsString.

Definition code_unit : Type := N.

(** A string literal of the source whose characters are all ASCII. *)
Definition lit (s : string) : list code_unit :=
  Ascii.N_of_ascii <$> String.list_ascii_of_string s.

(** [s.length] *)
Definition length (s : list code_unit) : Z := Z.of_nat (List.length s).

(** The clamping of an index argument to [0 .. len] done by [substring]. *)
Definition clamp (len i : Z) : Z := Z.min (Z.max i 0) len.

(** [s.substring(start, end)]: both ends are clamped to the string and
    swapped when they come in the wrong order. *)
Definition substring (s : list code_unit) (start end_ : Z) : list code_unit :=
  let len := length s in
  let finalStart := clamp len start in
  let finalEnd := clamp len end_ in
  let from := Z.min finalStart finalEnd in
  let to := Z.max finalStart finalEnd in
  take (Z.to_nat (to - from)) (drop (Z.to_nat from) s).

(** [s.charAt(pos)]: the one-unit string at [pos], the empty string when
    [pos] is outside the string. *)
Definition charAt (s : list code_unit) (pos : Z) : list code_unit :=
  if decide (0 ≤ pos < length s)
  then match s !! Z.to_nat pos with Some c => [c] | None => [] end
  else [].

End JsString.

(** ** [Math.random()]

    [Math.random()] is part of the language: ECMAScript fixes its result to
    a number that is at least 0 and strictly less than 1.  That is the type
    [UnitNumber].  The successive results are a stream: [rng k] is what the
    [k]-th call returns. *)

Record UnitNumber : Type := mkUnit {
  unit_value : Q;
  unit_range : Qle_bool 0 unit_value && negb (Qle_bool 1 unit_value) = true
}.

(** [Math.floor(Math.random() * n)] at the [k]-th call of [Math.random]. *)
Definition random_index (rng : nat → UnitNumber) (k : nat) (n : Z) : Z :=
  Qfloor (unit_value (rng k) * inject_Z n).

(** ** [generateUniqueId] (Method.js, lines 24-34) *)

Definition characters : list JsString.code_unit :=
  JsString.lit "ABCDEFGHIJKLMNOPQRSTUVWXYZabcdefghijklmnopqrstuvwxyz0123456789".

(** The code units of the ASCII upper-case letters, lower-case letters and
    digits. *)
Definition alphanumeric (c : JsString.code_unit) : Prop :=
  (65 ≤ c ≤ 90 ∨ 97 ≤ c ≤ 122 ∨ 48 ≤ c ≤ 57)%N.

Global Instance alphanumeric_dec c : Decision (alphanumeric c).
Proof. unfold alphanumeric. apply _. Defined.

(** The body of the [for] loop, run [todo] more times; [i] is the loop
    counter, which is also the number of calls of [Math.random] so far. *)
Fixpoint generateUniqueId_loop (rng : nat → UnitNumber) (todo i : nat)
    (result : list JsString.code_unit) : list JsString.code_unit :=
  match todo with
  | O => result
  | S todo' =>
      generateUniqueId_loop rng todo' (S i)
        (result ++ JsString.charAt characters
                     (random_index rng i (JsString.length characters)))
  end.

(** [i < length] holds for [i = 0, 1, ...] exactly [length] times when
    [length] is positive and never otherwise. *)
Definition generateUniqueId (rng : nat → UnitNumber) (length : option Z)
    : list JsString.code_unit :=
  let length := default 10 length in
  generateUniqueId_loop rng (Z.to_nat length) 0 [].

(** ** [truncateText] (Method.js, lines 43-46) *)

Definition default_suffix : list JsString.code_unit := JsString.lit "...".

Definition truncateText (text : list JsString.code_unit) (maxLength : Z)
    (suffix : option (list JsString.code_unit)) : list JsString.code_unit :=
  let suffix := default default_suffix suffix in
  if decide (JsString.length text ≤ maxLength) then text
  else JsString.substring text 0 (maxLength - JsString.length suffix) ++ suffix.

(** The text of the source's usage example, line 180: 18 code units (the
    accented letter is the single unit 232). *)
Definition example_text : list JsString.code_unit :=
  JsString.lit "Un tr" ++ [232%N] ++ JsString.lit "s long texte".

(** ** [shuffleArray] (Method.js, lines 90-97)

    An array is the list of its elements, [None] standing for [undefined]
    (and for a hole).  Arrays are objects: they live in a store and the
    function receives and returns locations. *)

Section Arrays.
Context {A : Type}.

(** [a[j]]: [undefined] outside the array. *)
Definition array_get (a : list (option A)) (j : Z) : option A :=
  if decide (0 ≤ j) then default None (a !! Z.to_nat j) else None.

(** [a[j] = v]: inside the array the element is replaced; beyond its end
    the array grows, the gap being holes; a negative [j] names an ordinary
    property and leaves the elements alone. *)
Definition array_set (a : list (option A)) (j : Z) (v : option A)
    : list (option A) :=
  if decide (j < 0) then a
  else if decide (j < Z.of_nat (length a)) then <[Z.to_nat j := v]> a
  else a ++ replicate (Z.to_nat j - length a) None ++ [v].

(** [[a[i], a[j]] = [a[j], a[i]]]: the right-hand side is built first,
    then [a[i]] and [a[j]] are assigned in that order. *)
Definition array_swap (a : list (option A)) (i j : Z) : list (option A) :=
  let tmp0 := array_get a j in
  let tmp1 := array_get a i in
  array_set (array_set a i tmp0) j tmp1.

(** The [for] loop: [i] runs from [shuffled.length - 1] down to 1, and [k]
    counts the calls of [Math.random]. *)
Fixpoint shuffleArray_loop (rng : nat → UnitNumber) (k i : nat)
    (shuffled : list (option A)) : list (option A) :=
  match i with
  | O => shuffled
  | S i' =>
      let j := random_index rng k (Z.of_nat i + 1) in
      shuffleArray_loop rng (S k) i' (array_swap shuffled (Z.of_nat i) j)
  end.

(** The function on the store: [[...array]] copies the elements into a new
    object, the loop writes to that object alone, and its location is
    returned.  The loop starts at [shuffled.length - 1], or does not run at
    all for an empty array.  [None] when [array] is not the location of an
    array. *)
Definition shuffleArray (rng : nat → UnitNumber) (array : nat)
    (store : gmap nat (list (option A)))
    : option (nat * gmap nat (list (option A))) :=
  match store !! array with
  | None => None
  | Some elements =>
      let shuffled := fresh (dom store) in
      let store1 := <[shuffled := elements]> store in
      Some (shuffled,
            <[shuffled := shuffleArray_loop rng 0 (length elements - 1)%nat
                            elements]> store1)
  end.

End Arrays.

(** ** [fetchWithTimeout] (Method.js, lines 151-171)

    The function is asynchronous: it runs up to its [await], and is resumed
    by the event loop when the promise of [fetch] settles.  In between, the
    event loop may run the timer's callback.  An invocation is therefore a
    state, and the event loop drives it with events.

    The transport is whatever [fetch] is bound to when the function runs.
    Its behaviour is not part of the function: what it does, and when, are
    the events.  What the timer, the controller and [clearTimeout] do is
    fixed, as the function owns them. *)

(** Values found in an options bag or returned by the transport. *)
Inductive value : Type :=
  | VUndefined
  | VString (s : string)
  | VNumber (n : Z)
  | VObject (l : nat)      (* an object of the platform: a response, headers *)
  | VSignal (c : nat).     (* [c.signal] for the abort controller [c] *)

Global Instance value_eq_dec : EqDecision value.
Proof. solve_decision. Defined.

(** Error objects: the two properties the function reads or writes. *)
Record ErrorObject : Type := mkError { name : string; message : string }.

Global Instance ErrorObject_eq_dec : EqDecision ErrorObject.
Proof. solve_decision. Defined.

(** [new Error("La requête a été abandonnée : délai d'attente dépassé")] *)
Definition timeout_error : ErrorObject :=
  mkError "Error" "La requête a été abandonnée : délai d'attente dépassé".

(** What outlives an invocation: the error objects allocated so far, by
    location, and the number of abort controllers created so far. *)
Record Platform : Type := mkPlatform {
  errors : gmap nat ErrorObject;
  controllers : nat
}.

(** Allocation of an error object at a location not in use. *)
Definition alloc_error (e : ErrorObject) (p : Platform) : nat * Platform :=
  let l := fresh (dom (errors p)) in
  (l, mkPlatform (<[l := e]> (errors p)) (controllers p)).

Inductive TimerState : Type := Scheduled | Fired | Cleared.

Global Instance TimerState_eq_dec : EqDecision TimerState.
Proof. solve_decision. Defined.

(** The three ways out of the function. *)
Inductive Outcome : Type :=
  | Returned (response : value)      (* line 161: [return response] *)
  | ThrewTimeout (error : nat)       (* lines 165-167: [throw new Error(..)] *)
  | Rethrew (error : nat).           (* line 169: [throw error] *)

Inductive Status : Type :=
  | Awaiting                         (* suspended at the [await] of line 156 *)
  | Settled (outcome : Outcome).

(** The three kinds of outcome of the specification's data model. *)
Inductive Kind : Type := Success | TimedOut | OtherFailure.

Definition kind (o : Outcome) : Kind :=
  match o with
  | Returned _ => Success
  | ThrewTimeout _ => TimedOut
  | Rethrew _ => OtherFailure
  end.

Record Invocation : Type := mkInvocation {
  platform : Platform;
  now : Z;                           (* milliseconds since the call *)
  controller : nat;                  (* [controller] of line 152 *)
  abort_signals : nat;               (* abort events sent on [controller.signal] *)
  timer : TimerState;                (* the timer [id] of line 153 *)
  timer_delay : Z;                   (* the delay given to [setTimeout] *)
  timers_set : nat;                  (* calls of [setTimeout] *)
  timers_cleared : nat;              (* calls of [clearTimeout] *)
  request_url : string;              (* first argument of [fetch] *)
  request_init : gmap string value;  (* second argument of [fetch] *)
  status : Status
}.

(** [controller.signal.aborted] *)
Definition aborted (st : Invocation) : bool :=
  bool_decide (0 < abort_signals st)%nat.

(** Lines 152-159: the synchronous part of the call.  The object literal
    [{...options, signal: controller.signal}] copies the own properties of
    [options] and then writes [signal]. *)
Definition fetchWithTimeout_start (url : string)
    (options : option (gmap string value)) (timeout : option Z)
    (p : Platform) : Invocation :=
  let options := default ∅ options in
  let timeout := default 5000 timeout in
  let controller := controllers p in
  {| platform := mkPlatform (errors p) (S (controllers p));
     now := 0;
     controller := controller;
     abort_signals := 0;
     timer := Scheduled;
     timer_delay := timeout;
     timers_set := 1;
     timers_cleared := 0;
     request_url := url;
     request_init := <["signal" := VSignal controller]> options;
     status := Awaiting |}.

(** [clearTimeout(id)]: a timer still scheduled is cancelled; one that has
    fired is left as it is. *)
Definition clearTimeout (st : Invocation) : Invocation :=
  {| platform := platform st; now := now st; controller := controller st;
     abort_signals := abort_signals st;
     timer := match timer st with Scheduled => Cleared | t => t end;
     timer_delay := timer_delay st;
     timers_set := timers_set st;
     timers_cleared := S (timers_cleared st);
     request_url := request_url st; request_init := request_init st;
     status := status st |}.

(** The timer's callback, [() => controller.abort()]: the first [abort()]
    of a controller sends the abort event on its signal. *)
Definition timer_callback (st : Invocation) : Invocation :=
  {| platform := platform st; now := now st; controller := controller st;
     abort_signals := if aborted st then abort_signals st
                      else S (abort_signals st);
     timer := Fired;
     timer_delay := timer_delay st;
     timers_set := timers_set st; timers_cleared := timers_cleared st;
     request_url := request_url st; request_init := request_init st;
     status := status st |}.

Definition set_platform (p : Platform) (st : Invocation) : Invocation :=
  {| platform := p; now := now st; controller := controller st;
     abort_signals := abort_signals st; timer := timer st;
     timer_delay := timer_delay st;
     timers_set := timers_set st; timers_cleared := timers_cleared st;
     request_url := request_url st; request_init := request_init st;
     status := status st |}.

Definition set_status (s : Status) (st : Invocation) : Invocation :=
  {| platform := platform st; now := now st; controller := controller st;
     abort_signals := abort_signals st; timer := timer st;
     timer_delay := timer_delay st;
     timers_set := timers_set st; timers_cleared := timers_cleared st;
     request_url := request_url st; request_init := request_init st;
     status := s |}.

Definition advance (ms : N) (st : Invocation) : Invocation :=
  {| platform := platform st; now := now st + Z.of_N ms;
     controller := controller st;
     abort_signals := abort_signals st; timer := timer st;
     timer_delay := timer_delay st;
     timers_set := timers_set st; timers_cleared := timers_cleared st;
     request_url := request_url st; request_init := request_init st;
     status := status st |}.

(** Lines 160-161: the [await] yields the response. *)
Definition resume_fulfilled (response : value) (st : Invocation) : Invocation :=
  set_status (Settled (Returned response)) (clearTimeout st).

(** Lines 162-170: the [await] throws [error], an object of the store. *)
Definition resume_rejected (error : nat) (st : Invocation) : Invocation :=
  let st := clearTimeout st in
  if decide (name <$> errors (platform st) !! error = Some "AbortError")
  then
    let '(l, p) := alloc_error timeout_error (platform st) in
    set_status (Settled (ThrewTimeout l)) (set_platform p st)
  else set_status (Settled (Rethrew error)) st.

(** What the event loop does to an invocation.
    - [Elapse ms]: time passes.
    - [TimerDue]: the loop picks the timer's task.  It runs the callback if
      the timer is still scheduled and its delay has elapsed (a delay of
      zero or less has elapsed at once; a delay above 2^31 - 1, which
      [setTimeout] does not keep as it is, is not modelled).
    - [Fulfil response]: the transport fulfils the promise of [fetch].
    - [Reject reason]: the transport rejects it with a new error object.
    A promise settles once: [Fulfil] and [Reject] resume the function only
    while it is suspended.  The continuation of the [await] is a microtask:
    it runs before the event loop picks anything else, so settling and
    resuming are one step. *)
Inductive Event : Type :=
  | Elapse (ms : N)
  | TimerDue
  | Fulfil (response : value)
  | Reject (reason : ErrorObject).

Definition timer_ready (st : Invocation) : bool :=
  bool_decide (timer st = Scheduled) && bool_decide (timer_delay st ≤ now st).

Definition step (st : Invocation) (ev : Event) : Invocation :=
  match ev with
  | Elapse ms => advance ms st
  | TimerDue => if timer_ready st then timer_callback st else st
  | Fulfil response =>
      match status st with
      | Awaiting => resume_fulfilled response st
      | Settled _ => st
      end
  | Reject reason =>
      match status st with
      | Awaiting =>
          let '(l, p) := alloc_error reason (platform st) in
          resume_rejected l (set_platform p st)
      | Settled _ => st
      end
  end.

Definition run (evs : list Event) (st : Invocation) : Invocation :=
  foldl step st evs.

(** A whole invocation: the call, then the events of the loop. *)
Definition fetchWithTimeout (url : string)
    (options : option (gmap string value)) (timeout : option Z)
    (evs : list Event) (p : Platform) : Invocation :=
  run evs (fetchWithTimeout_start url options timeout p).

Definition outcome (st : Invocation) : option Outcome :=
  match status st with Awaiting => None | Settled o => Some o end.

(** *** Vocabulary of the properties of [fetchWithTimeout] *)

Definition awaiting (st : Invocation) : bool :=
  match status st with Awaiting => true | Settled _ => false end.

Definition timer_pending (st : Invocation) : bool :=
  bool_decide (timer st = Scheduled).

Definition abort_error (e : ErrorObject) : bool :=
  bool_decide (name e = "AbortError").

(** The timer fires before the request settles: at some point of the run
    the event loop runs the timer's callback while the function is still
    suspended at its [await]. *)
Fixpoint timer_fires (evs : list Event) (st : Invocation) : bool :=
  match evs with
  | [] => false
  | ev :: evs' =>
      match ev with
      | TimerDue => awaiting st && timer_ready st
      | _ => false
      end || timer_fires evs' (step st ev)
  end.

(** The transport observes the cancellation signal: once the signal is
    aborted, the only way it settles the pending request is a rejection
    with an [AbortError], as the Fetch standard has it. *)
Fixpoint observes_signal (evs : list Event) (st : Invocation) : bool :=
  match evs with
  | [] => true
  | ev :: evs' =>
      (if awaiting st && aborted st
       then match ev with
            | Fulfil _ => false
            | Reject reason => abort_error reason
            | _ => true
            end
       else true) && observes_signal evs' (step st ev)
  end.

(** The function fails with its timeout error, and the abort signal was
    sent exactly once. *)
Definition timeout_reported (st : Invocation) : Prop :=
  ∃ l, outcome st = Some (ThrewTimeout l)
       ∧ errors (platform st) !! l = Some timeout_error
       ∧ abort_signals st = 1%nat.

(** The rejection [reason], arriving at [st], is surfaced unchanged: the
    function throws the very object the transport rejected with, an object
    new at [st] whose contents are still [reason], no other object is
    created, and the timer is no longer scheduled. *)
Definition surfaced_unchanged (reason : ErrorObject) (st : Invocation) : Prop :=
  let st' := step st (Reject reason) in
  ∃ l, errors (platform st) !! l = None
       ∧ outcome st' = Some (Rethrew l)
       ∧ errors (platform st') = <[l := reason]> (errors (platform st))
       ∧ timer_pending st' = false
       ∧ timers_cleared st' = S (timers_cleared st).

(** The transport receives every option the caller set, as set. *)
Definition options_passed_through (options : gmap string value)
    (st : Invocation) : Prop :=
  ∀ k v, options !! k = Some v → request_init st !! k = Some v.

(** What holds of every state an invocation goes through: one timer was
    set; it is cleared by the one [clearTimeout] that the function calls on
    its way out, unless it fired before; the signal is aborted exactly when
    the timer fired. *)
Definition consistent (st : Invocation) : Prop :=
  timers_set st = 1%nat
  ∧ match status st, timer st with
    | Awaiting, Scheduled => abort_signals st = 0%nat ∧ timers_cleared st = 0%nat
    | Awaiting, Fired => abort_signals st = 1%nat ∧ timers_cleared st = 0%nat
    | Awaiting, Cleared => False
    | Settled _, Scheduled => False
    | Settled _, Fired => abort_signals st = 1%nat ∧ timers_cleared st = 1%nat
    | Settled _, Cleared => abort_signals st = 0%nat ∧ timers_cleared st = 1%nat
    end.

(** Two invocations that agree on all that decides what happens next,
    whatever their platforms hold. *)
Definition alike (st1 st2 : Invocation) : Prop :=
  now st1 = now st2
  ∧ timer st1 = timer st2
  ∧ timer_delay st1 = timer_delay st2
  ∧ abort_signals st1 = abort_signals st2
  ∧ kind <$> outcome st1 = kind <$> outcome st2.

(** How a transport settles a request. *)
Inductive Settlement : Type :=
  | Fulfilled (response : value)
  | Rejected (reason : ErrorObject).

Global Instance Settlement_eq_dec : EqDecision Settlement.
Proof. solve_decision. Defined.

(** The event by which the event loop delivers a settlement. *)
Definition settle (s : Settlement) : Event :=
  match s with
  | Fulfilled response => Fulfil response
  | Rejected reason => Reject reason
  end.

(** The kind of outcome that a settlement leads to. *)
Definition settlement_kind (s : Settlement) : Kind :=
  match s with
  | Fulfilled _ => Success
  | Rejected reason => if abort_error reason then TimedOut else OtherFailure
  end.

(** A deterministic transport: how it settles a request, and from which
    time after the call on, is a function of the request as the caller
    made it (locator and options) and of whether the signal that came with
    it is aborted.  [None]: the request stays pending. *)
Definition Transport : Type :=
  string → gmap string value → bool → option (Z * Settlement).

(** The settlement [s], delivered to the invocation in state [st], is the
    transport's answer to the request. *)
Definition answers (T : Transport) (url : string)
    (options : gmap string value) (st : Invocation) (s : Settlement) : bool :=
  match T url options (aborted st) with
  | Some (ready, s') => bool_decide (s' = s) && bool_decide (ready ≤ now st)
  | None => false
  end.

(** Sample inputs. *)
Definition sample_url : string := "https://example.org/data".

Definition sample_platform : Platform := mkPlatform ∅ 1.

Definition sample_rng (k : nat) : UnitNumber :=
  if Nat.even k then mkUnit (3 # 4) eq_refl else mkUnit (1 # 5) eq_refl.

(** The array of the usage example, line 183, alone in its store. *)
Definition sample_array : list (option Z) :=
  [Some 1; Some 2; Some 3; Some 4; Some 5].

Definition sample_store : gmap nat (list (option Z)) :=
  {[ 0%nat := sample_array ]}.

(** A caller who has an abort controller of its own, number 0, and hands
    its signal over among the options. *)
Definition sample_options : gmap string value :=
  {[ "method" := VString "POST"; "signal" := VSignal 0 ]}.


(** A transport that observes it: the rejection follows the abort. *)
Definition observed_abort : list Event :=
  [Elapse 100; TimerDue; Elapse 2;
   Reject (mkError "AbortError" "The operation was aborted.")].

(** A transport that has the response ready 100 ms after the call and
    observes the signal: aborted, it rejects at once. *)
Definition racing_transport : Transport :=
  λ _ _ aborted,
    if aborted
    then Some (0, Rejected (mkError "AbortError" "The operation was aborted."))
    else Some (100, Fulfilled (VObject 200)).

(** Failures of the transport's own. *)
Definition early_abort_error : ErrorObject :=
  mkError "AbortError" "Fetch is aborted".

Definition network_error : ErrorObject :=
  mkError "TypeError" "Failed to fetch".

(** * The other helpers of the class *)

(** ** Regular expressions

    The fragment of the regular expressions of the language that the
    source uses for tests: character classes, sequence, choice and
    repetition, without groups to refer back to.  For such an expression
    [test] says whether some match exists. *)

Module RegExp.

Inductive regex : Type :=
  | Void                                   (* matches nothing *)
  | Empty                                  (* matches the empty string *)
  | Class (p : JsString.code_unit → bool)  (* one code unit of a class *)
  | Seq (r1 r2 : regex)
  | Alt (r1 r2 : regex)
  | Star (r : regex).

(** [r+] *)
Definition Plus (r : regex) : regex := Seq r (Star r).

(** The strings an expression matches in full. *)
Inductive matches : regex → list JsString.code_unit → Prop :=
  | matches_Empty : matches Empty []
  | matches_Class p c : p c = true → matches (Class p) [c]
  | matches_Seq r1 r2 s1 s2 :
      matches r1 s1 → matches r2 s2 → matches (Seq r1 r2) (s1 ++ s2)
  | matches_Alt_l r1 r2 s : matches r1 s → matches (Alt r1 r2) s
  | matches_Alt_r r1 r2 s : matches r2 s → matches (Alt r1 r2) s
  | matches_Star_nil r : matches (Star r) []
  | matches_Star_cons r s1 s2 :
      matches r s1 → matches (Star r) s2 → matches (Star r) (s1 ++ s2).

(** Whether the expression matches the empty string. *)
Fixpoint nullable (r : regex) : bool :=
  match r with
  | Void => false
  | Empty => true
  | Class _ => false
  | Seq r1 r2 => nullable r1 && nullable r2
  | Alt r1 r2 => nullable r1 || nullable r2
  | Star _ => true
  end.

(** What is left to match once the code unit [c] has been read. *)
Fixpoint derive (c : JsString.code_unit) (r : regex) : regex :=
  match r with
  | Void => Void
  | Empty => Void
  | Class p => if p c then Empty else Void
  | Seq r1 r2 =>
      if nullable r1
      then Alt (Seq (derive c r1) r2) (derive c r2)
      else Seq (derive c r1) r2
  | Alt r1 r2 => Alt (derive c r1) (derive c r2)
  | Star r1 => Seq (derive c r1) (Star r1)
  end.

(** [/^r$/.test(s)]: the whole of [s] is to match. *)
Fixpoint test_anchored (r : regex) (s : list JsString.code_unit) : bool :=
  match s with
  | [] => nullable r
  | c :: s' => test_anchored (derive c r) s'
  end.

End RegExp.

(** The class [\s]: the white space and line terminators of ECMAScript. *)
Definition is_space (c : JsString.code_unit) : bool :=
  bool_decide (c ∈ [9; 10; 11; 12; 13; 32; 160; 5760; 8232; 8233; 8239;
                    8287; 12288; 65279]%N)
  || bool_decide (8192 ≤ c ≤ 8202)%N.

(** ** [validateEmail] (Method.js, lines 53-56) *)

(** The class [[^\s@]]. *)
Definition not_space_or_at (c : JsString.code_unit) : bool :=
  negb (is_space c || bool_decide (c = 64%N)).

(** [/^[^\s@]+@[^\s@]+\.[^\s@]+$/], without its anchors. *)
Definition emailRegex : RegExp.regex :=
  RegExp.Seq (RegExp.Plus (RegExp.Class not_space_or_at))
    (RegExp.Seq (RegExp.Class (λ c, bool_decide (c = 64%N)))
       (RegExp.Seq (RegExp.Plus (RegExp.Class not_space_or_at))
          (RegExp.Seq (RegExp.Class (λ c, bool_decide (c = 46%N)))
             (RegExp.Plus (RegExp.Class not_space_or_at))))).

Definition validateEmail (email : list JsString.code_unit) : bool :=
  RegExp.test_anchored emailRegex email.

(** ** [getTimeElapsed] (Method.js, lines 63-83)

    Dates are their time values, in milliseconds; [now] is what
    [new Date()] reads off the clock.  The numbers of the function are
    doubles: its difference and its quotients are exact, and are what is
    written here, as long as the two dates are no more than 2^52 ms apart
    ([exact_span], some 142 000 years).  An Invalid Date has no time
    value: see [getTimeElapsed_Date]. *)

(** The decimal digits of an integer, as the template literal prints it. *)
Definition number_to_string (n : Z) : list JsString.code_unit :=
  JsString.lit (pretty n).

(** The units, in the order of the object literal; the accented letter of
    the first is the code unit 233. *)
Definition intervals : list (list JsString.code_unit * Z) :=
  [ (JsString.lit "ann" ++ [233%N] ++ JsString.lit "e", 31536000);
    (JsString.lit "mois", 2592000);
    (JsString.lit "semaine", 604800);
    (JsString.lit "jour", 86400);
    (JsString.lit "heure", 3600);
    (JsString.lit "minute", 60) ].

(** The string of line 82; its first letter is the code unit 192. *)
Definition just_now : list JsString.code_unit :=
  [192%N] ++ JsString.lit " l'instant".

(** The template literal of line 78. *)
Definition elapsed_phrase (interval : Z) (unit : list JsString.code_unit)
    : list JsString.code_unit :=
  JsString.lit "Il y a " ++ number_to_string interval ++ JsString.lit " "
  ++ unit ++ (if decide (1 < interval) then JsString.lit "s" else []).

(** The [for] loop over the entries. *)
Fixpoint getTimeElapsed_loop (seconds : Z)
    (entries : list (list JsString.code_unit * Z)) : list JsString.code_unit :=
  match entries with
  | [] => just_now
  | (unit, secondsInUnit) :: entries' =>
      let interval := seconds / secondsInUnit in
      if decide (1 ≤ interval) then elapsed_phrase interval unit
      else getTimeElapsed_loop seconds entries'
  end.

Definition getTimeElapsed (now date : Z) : list JsString.code_unit :=
  let seconds := (now - date) / 1000 in
  getTimeElapsed_loop seconds intervals.

(** The span of time, 2^52 ms, within which the arithmetic of the function
    is exact. *)
Definition exact_span : Z := 4503599627370496.

(** The loop when [seconds] is [NaN]: every [interval] is [NaN] and the
    test [interval >= 1] of line 77 fails for each entry. *)
Fixpoint getTimeElapsed_loop_NaN
    (entries : list (list JsString.code_unit * Z)) : list JsString.code_unit :=
  match entries with
  | [] => just_now
  | (unit, secondsInUnit) :: entries' => getTimeElapsed_loop_NaN entries'
  end.

(** The function on [Date] objects: [None] is an Invalid Date, whose time
    value is [NaN], and so are the difference and [seconds] of line 64. *)
Definition getTimeElapsed_Date (now : Z) (date : option Z)
    : list JsString.code_unit :=
  match date with
  | Some time => getTimeElapsed now time
  | None => getTimeElapsed_loop_NaN intervals
  end.

(** ** [isEmptyObject] (Method.js, lines 120-125)

    Of an object the function sees the names of its properties and
    whether each is enumerable, on the object itself and along its
    prototype chain.  [own] maps the names of the object's own
    string-keyed properties to their enumerable flag; [prototypes] are the
    like tables of its prototypes, the nearest first. *)

Record JsObject : Type := mkObject {
  own : gmap string bool;
  prototypes : list (gmap string bool)
}.

(** [for (const prop in obj)]: on each object of the chain in turn, the
    enumerable properties whose name has not been met on an object nearer
    (enumerable or not there). *)
Fixpoint for_in_chain (visited : gset string)
    (chain : list (gmap string bool)) : list string :=
  match chain with
  | [] => []
  | table :: chain' =>
      (map_to_list
         (filter (λ kv, kv.2 = true ∧ kv.1 ∉ visited) table)).*1
      ++ for_in_chain (visited ∪ dom table) chain'
  end.

Definition for_in (obj : JsObject) : list string :=
  for_in_chain ∅ (own obj :: prototypes obj).

(** [Object.hasOwn(obj, prop)] *)
Definition hasOwn (obj : JsObject) (prop : string) : bool :=
  bool_decide (is_Some (own obj !! prop)).

Fixpoint isEmptyObject_loop (obj : JsObject) (props : list string) : bool :=
  match props with
  | [] => true
  | prop :: props' =>
      if hasOwn obj prop then false else isEmptyObject_loop obj props'
  end.

(** [None] is [null] or [undefined], over which [for ... in] does not
    iterate. *)
Definition isEmptyObject (obj : option JsObject) : bool :=
  match obj with
  | None => true
  | Some o => isEmptyObject_loop o (for_in o)
  end.

(** ** [groupBy] (Method.js, lines 133-142)

    The accumulator is a plain object: an ordinary object whose prototype
    is [Object.prototype].  Its own properties are the groups, kept here as
    a finite map from property names to arrays (the order in which an
    engine lists the names is not modelled).  What an element is, and how
    the value of [current[key]] becomes a property name, belong to the
    platform: [property_key current key] is that name, or [None] when
    reading [current[key]] or converting it throws, as the read does for
    an element that is [null] or [undefined]. *)

(** The properties every plain object inherits.  All of them have a value
    that is truthy and that has no [push] method. *)
Definition object_prototype_names : list string :=
  [ "constructor"; "hasOwnProperty"; "isPrototypeOf"; "propertyIsEnumerable";
    "toLocaleString"; "toString"; "valueOf"; "__proto__";
    "__defineGetter__"; "__defineSetter__"; "__lookupGetter__";
    "__lookupSetter__" ].

Section GroupBy.
Context {A : Type} (property_key : A → string → option string).

(** The callback of [reduce].  [None] is an exception: the one of line
    135, or the [TypeError] thrown by the call of [acc[groupKey].push]
    when [acc[groupKey]] is an inherited value.  A group of the
    accumulator is an array and so truthy; a name that is neither a group
    nor inherited reads as [undefined]. *)
Definition groupBy_callback (key : string) (acc : gmap string (list A))
    (current : A) : option (gmap string (list A)) :=
  match property_key current key with
  | None => None
  | Some groupKey =>
      match acc !! groupKey with
      | Some group => Some (<[groupKey := group ++ [current]]> acc)
      | None =>
          if decide (groupKey ∈ object_prototype_names) then None
          else Some (<[groupKey := [] ++ [current]]> acc)
      end
  end.

(** [array.reduce(callback, {})]: an exception ends the reduction. *)
Fixpoint groupBy_reduce (key : string) (acc : gmap string (list A))
    (array : list A) : option (gmap string (list A)) :=
  match array with
  | [] => Some acc
  | current :: array' =>
      match groupBy_callback key acc current with
      | None => None
      | Some acc' => groupBy_reduce key acc' array'
      end
  end.

Definition groupBy (array : list A) (key : string)
    : option (gmap string (list A)) :=
  groupBy_reduce key ∅ array.

(** The elements on which the callback throws, whatever the accumulator
    holds. *)
Definition throws_on (key : string) (x : A) : Prop :=
  match property_key x key with
  | None => True
  | Some groupKey => groupKey ∈ object_prototype_names
  end.

End GroupBy.

(** The number of elements held by all the groups together. *)
Definition grouped_count {A : Type} (groups : gmap string (list A)) : nat :=
  sum_list (length <$> (map_to_list groups).*2).

(** Elements [{type: t, name: n}], given as the pair of the two strings,
    or [null], given as [None]: either property reads as its string, any
    other is missing and reads as [undefined], which becomes the name
    "undefined"; reading a property of [null] throws. *)
Definition sample_property_key (current : option (string * string))
    (key : string) : option string :=
  match current with
  | None => None
  | Some (type, name) =>
      Some (if decide (key = "type") then type
            else if decide (key = "name") then name
            else "undefined")
  end.

(** The array of the usage example, lines 186-188, with names added. *)
Definition sample_records : list (option (string * string)) :=
  [ Some ("A", "un"); Some ("B", "deux"); Some ("A", "trois") ].

Definition sample_groups : gmap string (list (option (string * string))) :=
  {[ "A" := [ Some ("A", "un"); Some ("A", "trois") ];
     "B" := [ Some ("B", "deux") ] ]}.

(** ** [generateSlug] (Method.js, lines 104-113)

    [toLowerCase] and [normalize("NFD")] are the platform's, over all of
    Unicode: they are parameters here.  The four replacements and the
    [trim] are the function's own. *)

(** The class [[\u0300-\u036f]]: the combining diacritical marks. *)
Definition is_combining_mark (c : JsString.code_unit) : bool :=
  bool_decide (768 ≤ c ≤ 879)%N.

Definition is_dash (c : JsString.code_unit) : bool := bool_decide (c = 45%N).

(** The class [[a-z0-9]]. *)
Definition is_lower_or_digit (c : JsString.code_unit) : bool :=
  bool_decide (97 ≤ c ≤ 122)%N || bool_decide (48 ≤ c ≤ 57)%N.

(** The class [[^a-z0-9\s-]]. *)
Definition not_slug_material (c : JsString.code_unit) : bool :=
  negb (is_lower_or_digit c || is_space c || is_dash c).

(** [s.replace(/[class]/g, "")]: every code unit of the class goes. *)
Definition remove_class (class : JsString.code_unit → bool)
    (s : list JsString.code_unit) : list JsString.code_unit :=
  filter (λ c, class c = false) s.

(** [s.replace(/[class]+/g, by)]: every maximal run of code units of the
    class is replaced by one [by]; [in_run] tells that the code unit just
    before was of the class. *)
Fixpoint replace_runs (class : JsString.code_unit → bool)
    (by_ : list JsString.code_unit) (in_run : bool)
    (s : list JsString.code_unit) : list JsString.code_unit :=
  match s with
  | [] => []
  | c :: s' =>
      if class c
      then (if in_run then [] else by_) ++ replace_runs class by_ true s'
      else c :: replace_runs class by_ false s'
  end.

Fixpoint trim_start (s : list JsString.code_unit) : list JsString.code_unit :=
  match s with
  | [] => []
  | c :: s' => if is_space c then trim_start s' else s
  end.

(** [s.trim()]: the white space and line terminators at both ends go. *)
Definition trim (s : list JsString.code_unit) : list JsString.code_unit :=
  reverse (trim_start (reverse (trim_start s))).

Section Slug.
Context (toLowerCase normalizeNFD :
           list JsString.code_unit → list JsString.code_unit).

(** The chain of calls up to, and without, the final [trim]. *)
Definition generateSlug_replaced (string : list JsString.code_unit)
    : list JsString.code_unit :=
  replace_runs is_dash (JsString.lit "-") false
    (replace_runs is_space (JsString.lit "-") false
       (remove_class not_slug_material
          (remove_class is_combining_mark
             (normalizeNFD (toLowerCase string))))).

Definition generateSlug (string : list JsString.code_unit)
    : list JsString.code_unit :=
  trim (generateSlug_replaced string).

End Slug.

(** Two dashes side by side somewhere in the string. *)
Fixpoint double_dash (s : list JsString.code_unit) : bool :=
  match s with
  | c1 :: s' =>
      match s' with
      | c2 :: _ => (is_dash c1 && is_dash c2) || double_dash s'
      | [] => false
      end
  | [] => false
  end.

(** [toLowerCase] on strings of ASCII: the letters A to Z are moved to a
    to z. *)
Definition ascii_toLowerCase (s : list JsString.code_unit)
    : list JsString.code_unit :=
  (λ c, if bool_decide (65 ≤ c ≤ 90)%N then (c + 32)%N else c) <$> s.

(** * Properties *)

(** ** Randomness *)

Lemma unit_value_range (u : UnitNumber) :
  (0 <= unit_value u)%Q ∧ (unit_value u < 1)%Q.
Proof.
  destruct u as [q Hq]. simpl. apply andb_true_iff in Hq as [H0 H1].
  split; [by apply Qle_bool_iff|].
  apply Qnot_le_lt. intros Hle. apply Qle_bool_iff in Hle.
  by rewrite Hle in H1.
Qed.

(** The one fact about the draws that the proofs below use. *)
Lemma random_index_range rng k n :
  0 < n → 0 ≤ random_index rng k n < n.
Proof.
  intros Hn. destruct (unit_value_range (rng k)) as [H0 H1].
  unfold random_index.
  assert (Hn' : (inject_Z 0 < inject_Z n)%Q) by (rewrite <- Zlt_Qlt; exact Hn).
  split.
  - rewrite <- (Qfloor_Z 0).
    apply Qfloor_resp_le, Qmult_le_0_compat; [exact H0|].
    apply Qlt_le_weak, Hn'.
  - rewrite Zlt_Qlt. eapply Qle_lt_trans; [apply Qfloor_le|].
    rewrite <- (Qmult_1_l (inject_Z n)) at 2.
    apply Qmult_lt_compat_r; assumption.
Qed.

(** ** [truncateText] *)

Example truncateText_usage :
  truncateText example_text 10 None
  = JsString.lit "Un tr" ++ [232%N] ++ JsString.lit "s...".
Proof. reflexivity. Qed.

Lemma substring_prefix s n :
  0 ≤ n ≤ JsString.length s →
  JsString.substring s 0 n = take (Z.to_nat n) s.
Proof.
  intros Hn. unfold JsString.substring, JsString.clamp, JsString.length in *.
  cbv zeta.
  replace (Z.min (Z.max 0 0) (Z.of_nat (length s))) with 0 by lia.
  replace (Z.min (Z.max n 0) (Z.of_nat (length s))) with n by lia.
  replace (Z.min 0 n) with 0 by lia.
  replace (Z.max 0 n - 0) with n by lia.
  reflexivity.
Qed.

(** C8. When the suffix in force (the given one, or "..." by default) is no
    longer than [maxLength]: a text longer than [maxLength] is cut to
    exactly [maxLength] code units and the result ends with the suffix; a
    text that fits is returned unchanged. *)
Theorem truncateText_spec text maxLength suffix :
  JsString.length (default default_suffix suffix) ≤ maxLength →
  (if decide (maxLength < JsString.length text)
   then JsString.length (truncateText text maxLength suffix) = maxLength
        ∧ ∃ kept, truncateText text maxLength suffix
                  = kept ++ default default_suffix suffix
   else truncateText text maxLength suffix = text).
Proof.
  intros Hsuffix. unfold truncateText.
  set (sfx := default default_suffix suffix) in *.
  assert (0 ≤ JsString.length sfx) by (unfold JsString.length; lia).
  destruct (decide (maxLength < JsString.length text)) as [Hlong|Hfits].
  - rewrite decide_False by lia.
    rewrite substring_prefix by lia.
    split; [|by eexists].
    unfold JsString.length in *. rewrite length_app, length_take. lia.
  - by rewrite decide_True by lia.
Qed.

Lemma truncateText_spec_witness :
  JsString.length (default default_suffix None) ≤ 10
  ∧ JsString.length (truncateText example_text 10 None) = 10.
Proof.
  split; [vm_compute; congruence|].
  pose proof (truncateText_spec example_text 10 None) as H.
  destruct (decide (10 < JsString.length example_text)) as [_|Hn].
  - apply H. vm_compute; congruence.
  - exfalso. apply Hn. vm_compute. reflexivity.
Defined.

(** ** [generateUniqueId] *)

Lemma characters_length : JsString.length characters = 62.
Proof. reflexivity. Qed.

Lemma characters_NoDup : NoDup characters.
Proof. apply (bool_decide_unpack (NoDup characters)). vm_compute. exact I. Qed.

Lemma characters_alphanumeric : Forall alphanumeric characters.
Proof.
  apply (bool_decide_unpack (Forall alphanumeric characters)).
  vm_compute. exact I.
Qed.

Lemma charAt_inside s pos :
  0 ≤ pos < JsString.length s →
  ∃ c, JsString.charAt s pos = [c] ∧ c ∈ s.
Proof.
  intros Hpos. unfold JsString.charAt. rewrite decide_True by done.
  unfold JsString.length in Hpos.
  destruct (lookup_lt_is_Some_2 s (Z.to_nat pos)) as [c Hc]; [lia|].
  rewrite Hc. exists c. split; [done|]. by eapply list_elem_of_lookup_2.
Qed.

Lemma generateUniqueId_loop_spec rng (P : JsString.code_unit → Prop) :
  (∀ c, c ∈ characters → P c) →
  ∀ todo i result,
    Forall P result →
    length (generateUniqueId_loop rng todo i result)
    = (length result + todo)%nat
    ∧ Forall P (generateUniqueId_loop rng todo i result).
Proof.
  intros HP. induction todo as [|todo IH]; intros i result Hres; simpl.
  - split; [lia | done].
  - destruct (charAt_inside characters
                (random_index rng i (JsString.length characters)))
      as (c & -> & Hc).
    { apply random_index_range. by rewrite characters_length. }
    destruct (IH (S i) (result ++ [c])) as [Hlen Hall].
    { apply Forall_app. split; [done|]. constructor; [by apply HP | constructor]. }
    split; [|done]. rewrite Hlen, length_app. simpl. lia.
Qed.

(** C10. For a length that is a non-negative integer (the given one, or 10
    by default), the identifier has exactly that many code units, and each
    is one of the 62 characters of the alphabet: an ASCII upper-case
    letter, lower-case letter or digit. *)
Theorem generateUniqueId_spec rng length :
  0 ≤ default 10 length →
  JsString.length (generateUniqueId rng length) = default 10 length
  ∧ Forall (λ c, c ∈ characters ∧ alphanumeric c)
      (generateUniqueId rng length).
Proof.
  intros Hlen. unfold generateUniqueId.
  destruct (generateUniqueId_loop_spec rng
              (λ c, c ∈ characters ∧ alphanumeric c)) with
    (todo := Z.to_nat (default 10 length)) (i := O)
    (result := @nil JsString.code_unit) as [Hl Hall].
  - intros c Hc. split; [done|].
    by eapply (proj1 (Forall_forall _ _) characters_alphanumeric).
  - constructor.
  - split; [|done]. unfold JsString.length. rewrite Hl. simpl. lia.
Qed.

Lemma generateUniqueId_spec_witness :
  JsString.length (generateUniqueId sample_rng (Some 12)) = 12
  ∧ Forall (λ c, c ∈ characters ∧ alphanumeric c)
      (generateUniqueId sample_rng (Some 12)).
Proof.
  apply (generateUniqueId_spec sample_rng (Some 12)).
  simpl. lia.
Defined.

Example generateUniqueId_sample :
  generateUniqueId sample_rng (Some 4) = JsString.lit "uMuM".
Proof. vm_compute. reflexivity. Qed.

(** A length that is not positive gives the empty identifier. *)
Example generateUniqueId_negative : generateUniqueId sample_rng (Some (-3)) = [].
Proof. reflexivity. Qed.

(** ** [shuffleArray] *)

Lemma insert_swap_head {A} (t : list A) j x y :
  t !! j = Some y → y :: <[j := x]> t ≡ₚ x :: t.
Proof.
  revert j. induction t as [|z t IH]; intros [|j] Hj; simplify_eq/=.
  - apply Permutation_swap.
  - trans (z :: y :: <[j := x]> t); [apply Permutation_swap|].
    trans (z :: x :: t); [|apply Permutation_swap].
    f_equiv. by apply IH.
Qed.

Lemma insert_swap_perm {A} (a : list A) i j x y :
  a !! i = Some x → a !! j = Some y → <[j := x]> (<[i := y]> a) ≡ₚ a.
Proof.
  revert i j. induction a as [|z a IH]; intros [|i] [|j] Hi Hj; simplify_eq/=.
  - done.
  - by apply insert_swap_head.
  - by apply insert_swap_head.
  - f_equiv. by apply IH.
Qed.

(** A swap of two positions of the array rearranges it. *)
Lemma array_swap_perm {A} (a : list (option A)) i j :
  0 ≤ i < Z.of_nat (length a) → 0 ≤ j < Z.of_nat (length a) →
  array_swap a i j ≡ₚ a.
Proof.
  intros Hi Hj. unfold array_swap, array_get, array_set.
  rewrite (decide_True (P := 0 ≤ j)), (decide_True (P := 0 ≤ i)) by lia.
  rewrite (decide_False (P := i < 0)), (decide_False (P := j < 0)) by lia.
  rewrite (decide_True (P := i < _)) by lia.
  rewrite (decide_True (P := j < _)) by (rewrite length_insert; lia).
  destruct (lookup_lt_is_Some_2 a (Z.to_nat i)) as [x Hx]; [lia|].
  destruct (lookup_lt_is_Some_2 a (Z.to_nat j)) as [y Hy]; [lia|].
  rewrite Hx, Hy. simpl. by apply insert_swap_perm.
Qed.

Lemma shuffleArray_loop_perm {A} rng i :
  ∀ k (a : list (option A)),
    (i ≤ length a - 1)%nat → shuffleArray_loop rng k i a ≡ₚ a.
Proof.
  induction i as [|i IH]; intros k a Hi; [done|].
  cbn [shuffleArray_loop].
  pose proof (random_index_range rng k (Z.of_nat (S i) + 1)) as Hj.
  assert (Hswap : array_swap a (Z.of_nat (S i))
                    (random_index rng k (Z.of_nat (S i) + 1)) ≡ₚ a)
    by (apply array_swap_perm; lia).
  rewrite IH; [done|].
  rewrite (Permutation_length Hswap). lia.
Qed.

(** C9. For every array, [shuffleArray] returns an array that is a new
    object, distinct from the input, whose elements are a permutation of
    the input's (so of the same length); the input array and every other
    array of the store are left as they were. *)
Theorem shuffleArray_spec {A} rng (array : nat)
    (store : gmap nat (list (option A))) (elements : list (option A)) :
  store !! array = Some elements →
  ∃ shuffled store' result,
    shuffleArray rng array store = Some (shuffled, store')
    ∧ store !! shuffled = None
    ∧ shuffled ≠ array
    ∧ store' !! shuffled = Some result
    ∧ result ≡ₚ elements
    ∧ length result = length elements
    ∧ store' !! array = Some elements
    ∧ delete shuffled store' = store.
Proof.
  intros Harray. unfold shuffleArray. rewrite Harray.
  set (shuffled := fresh (dom store)).
  assert (Hnew : store !! shuffled = None).
  { apply not_elem_of_dom. apply is_fresh. }
  assert (Hne : shuffled ≠ array) by congruence.
  assert (Hperm : shuffleArray_loop rng 0 (length elements - 1) elements
                  ≡ₚ elements)
    by (by apply shuffleArray_loop_perm).
  eexists _, _, _. split; [reflexivity|].
  rewrite insert_insert_eq, lookup_insert_eq, lookup_insert_ne by done.
  repeat split; try done.
  - by apply Permutation_length.
  - rewrite delete_insert_eq. by apply delete_id.
Qed.

Lemma shuffleArray_spec_witness :
  ∃ shuffled store' result,
    shuffleArray sample_rng 0%nat sample_store = Some (shuffled, store')
    ∧ shuffled ≠ 0%nat
    ∧ store' !! shuffled = Some result
    ∧ result ≡ₚ sample_array
    ∧ store' !! 0%nat = Some sample_array.
Proof.
  destruct (shuffleArray_spec sample_rng 0%nat sample_store sample_array)
    as (shuffled & store' & result & H1 & _ & H0 & H2 & H3 & _ & H4 & _).
  - vm_compute. reflexivity.
  - by exists shuffled, store', result.
Defined.

(** The source's usage example, line 183, under the sample draws. *)
Example shuffleArray_usage :
  shuffleArray sample_rng 0%nat sample_store
  = Some (1%nat,
          {[ 0%nat := sample_array;
             1%nat := [Some 2; Some 5; Some 3; Some 1; Some 4] ]}).
Proof. vm_compute. reflexivity. Qed.

(** ** [fetchWithTimeout] *)

(** *** How a suspended invocation is resumed *)

Lemma step_Fulfil st response :
  status st = Awaiting →
  step st (Fulfil response)
  = set_status (Settled (Returned response)) (clearTimeout st).
Proof. intros H. unfold step. by rewrite H. Qed.

Lemma step_Reject st reason :
  status st = Awaiting →
  let l := fresh (dom (errors (platform st))) in
  let st1 :=
    clearTimeout
      (set_platform
         (mkPlatform (<[l := reason]> (errors (platform st)))
            (controllers (platform st))) st) in
  errors (platform st) !! l = None
  ∧ step st (Reject reason)
    = if abort_error reason
      then
        let l' := fresh (dom (errors (platform st1))) in
        set_status (Settled (ThrewTimeout l'))
          (set_platform
             (mkPlatform (<[l' := timeout_error]> (errors (platform st1)))
                (controllers (platform st1))) st1)
      else set_status (Settled (Rethrew l)) st1.
Proof.
  intros H l st1. split.
  { apply not_elem_of_dom, is_fresh. }
  unfold step. rewrite H. unfold alloc_error, resume_rejected. cbn zeta beta iota.
  fold l. fold st1.
  assert (Hl : name <$> errors (platform st1) !! l = Some (name reason)).
  { subst st1. simpl. by rewrite lookup_insert_eq. }
  unfold abort_error. rewrite Hl.
  destruct (decide (name reason = "AbortError")) as [Hn|Hn].
  - rewrite decide_True by congruence. by rewrite bool_decide_eq_true_2.
  - rewrite decide_False by congruence. by rewrite bool_decide_eq_false_2.
Qed.

Lemma step_TimerDue_idle st :
  timer_pending st = false → step st TimerDue = st.
Proof.
  unfold timer_pending. intros H. unfold step, timer_ready. by rewrite H.
Qed.

(** *** The invariant *)

Lemma consistent_start url options timeout p :
  consistent (fetchWithTimeout_start url options timeout p).
Proof. by repeat split. Qed.

Lemma consistent_step st ev : consistent st → consistent (step st ev).
Proof.
  intros [Hset Hst]. destruct ev as [ms| |response|reason].
  - done.
  - simpl. unfold timer_ready.
    destruct (timer st) eqn:Ht; simpl; [|by split; rewrite ?Ht..].
    case_bool_decide; [|by split; rewrite ?Ht].
    split; [done|]. unfold timer_callback, aborted. simpl.
    destruct (status st); [|done].
    destruct Hst as [-> ->]. done.
  - destruct (status st) eqn:Hs; [|by unfold step; rewrite Hs; split; rewrite ?Hs].
    rewrite step_Fulfil by done. split; [done|]. simpl.
    destruct (timer st); intuition.
  - destruct (status st) eqn:Hs; [|by unfold step; rewrite Hs; split; rewrite ?Hs].
    destruct (step_Reject st reason Hs) as [_ ->].
    destruct (abort_error reason); (split; [done|]); simpl;
      destruct (timer st); intuition.
Qed.

Lemma consistent_run evs st : consistent st → consistent (run evs st).
Proof.
  revert st. induction evs as [|ev evs IH]; intros st H; [done|].
  apply IH. by apply consistent_step.
Qed.

Lemma consistent_fetchWithTimeout url options timeout evs p :
  consistent (fetchWithTimeout url options timeout evs p).
Proof. apply consistent_run, consistent_start. Qed.

(** *** After the function has returned or thrown *)

Lemma settled_step st ev o :
  consistent st → status st = Settled o →
  status (step st ev) = Settled o
  ∧ platform (step st ev) = platform st
  ∧ timer (step st ev) = timer st
  ∧ abort_signals (step st ev) = abort_signals st
  ∧ timers_cleared (step st ev) = timers_cleared st.
Proof.
  intros [_ Hc] Hs. rewrite Hs in Hc. destruct ev as [ms| |response|reason].
  - done.
  - rewrite step_TimerDue_idle; [done|].
    unfold timer_pending. by destruct (timer st).
  - unfold step. by rewrite Hs.
  - unfold step. by rewrite Hs.
Qed.

Lemma settled_run evs st o :
  consistent st → status st = Settled o →
  status (run evs st) = Settled o
  ∧ platform (run evs st) = platform st
  ∧ timer (run evs st) = timer st
  ∧ abort_signals (run evs st) = abort_signals st
  ∧ timers_cleared (run evs st) = timers_cleared st.
Proof.
  revert st. induction evs as [|ev evs IH]; intros st Hc Hs; [done|].
  destruct (settled_step st ev o Hc Hs) as (H1 & H2 & H3 & H4 & H5).
  destruct (IH (step st ev) (consistent_step _ _ Hc) H1)
    as (I1 & I2 & I3 & I4 & I5).
  change (run (ev :: evs) st) with (run evs (step st ev)).
  by rewrite I1, I2, I3, I4, I5, H2, H3, H4, H5.
Qed.

(** *** What the call fixes once and for all *)

Lemma step_frame st ev :
  request_url (step st ev) = request_url st
  ∧ request_init (step st ev) = request_init st
  ∧ controller (step st ev) = controller st
  ∧ timer_delay (step st ev) = timer_delay st.
Proof.
  destruct ev as [ms| |response|reason]; unfold step.
  - done.
  - by destruct (timer_ready st).
  - by destruct (status st).
  - destruct (status st); [|done].
    unfold alloc_error, resume_rejected. simpl. by case_decide.
Qed.

Lemma run_frame evs st :
  request_url (run evs st) = request_url st
  ∧ request_init (run evs st) = request_init st
  ∧ controller (run evs st) = controller st
  ∧ timer_delay (run evs st) = timer_delay st.
Proof.
  revert st. induction evs as [|ev evs IH]; intros st; [done|].
  change (run (ev :: evs) st) with (run evs (step st ev)).
  destruct (IH (step st ev)) as (-> & -> & -> & ->). apply step_frame.
Qed.

(** *** Once the timer has fired *)



Lemma fired_signals_once st :
  consistent st → timer st = Fired → abort_signals st = 1%nat.
Proof.
  intros [_ Hc] Ht. rewrite Ht in Hc. by destruct (status st), Hc.
Qed.


(** A transport that observes the signal can only answer an aborted
    request with an [AbortError], which the function turns into its own
    timeout error. *)
Lemma aborted_request_times_out evs st :
  consistent st → status st = Awaiting → timer st = Fired →
  observes_signal evs st = true →
  is_Some (outcome (run evs st)) →
  timeout_reported (run evs st).
Proof.
  revert st. induction evs as [|ev evs IH]; intros st Hc Hs Ht Hobs Hout.
  { unfold outcome in Hout. simpl in Hout. rewrite Hs in Hout.
    by destruct Hout. }
  change (run (ev :: evs) st) with (run evs (step st ev)) in *.
  pose proof (consistent_step st ev Hc) as Hc'.
  pose proof (fired_signals_once st Hc Ht) as Hab.
  cbn [observes_signal] in Hobs. apply andb_true_iff in Hobs as [Hev Hobs].
  unfold awaiting, aborted in Hev. rewrite Hs, Hab in Hev. simpl in Hev.
  destruct ev as [ms| |response|reason]; try done.
  - apply IH; try done.
  - rewrite step_TimerDue_idle in *
      by (unfold timer_pending; by rewrite Ht).
    by apply IH.
  - destruct (step_Reject st reason Hs) as [_ Hstep].
    rewrite Hev in Hstep. cbn zeta in Hstep.
    destruct (settled_run evs _ _ Hc' ltac:(by rewrite Hstep))
      as (R1 & R2 & _ & R4 & _).
    eexists. unfold outcome. rewrite R1, R2, R4. split; [done|].
    rewrite Hstep. simpl. by rewrite lookup_insert_eq.
Qed.

(** *** Settlements *)

Lemma run_app evs later st : run (evs ++ later) st = run later (run evs st).
Proof. unfold run. apply foldl_app. Qed.

(** A settlement delivered to the suspended function makes it return or
    throw, and decides of which kind the outcome is. *)
Lemma settled_by st s later :
  consistent st → status st = Awaiting →
  ∃ o, outcome (run (settle s :: later) st) = Some o
       ∧ kind o = settlement_kind s
       ∧ abort_signals (run (settle s :: later) st) = abort_signals st
       ∧ match o with
         | Returned response => s = Fulfilled response
         | ThrewTimeout l =>
             errors (platform (run (settle s :: later) st)) !! l
             = Some timeout_error
         | Rethrew l => True
         end.
Proof.
  intros Hc Hs.
  change (run (settle s :: later) st) with (run later (step st (settle s))).
  pose proof (consistent_step st (settle s) Hc) as Hc'.
  destruct s as [response|reason]; cbn [settle settlement_kind] in *.
  - destruct (settled_run later _ (Returned response) Hc')
      as (R1 & _ & _ & R4 & _); [by rewrite step_Fulfil|].
    exists (Returned response). unfold outcome. rewrite R1, R4.
    by rewrite step_Fulfil.
  - destruct (step_Reject st reason Hs) as [_ Hstep]. cbn zeta in Hstep.
    destruct (abort_error reason) eqn:Hab.
    + destruct (settled_run later _ _ Hc' ltac:(by rewrite Hstep))
        as (R1 & R2 & _ & R4 & _).
      eexists. unfold outcome. rewrite R1. split; [reflexivity|].
      split; [done|]. rewrite R2, R4, Hstep. simpl. split; [done|].
      by rewrite lookup_insert_eq.
    + destruct (settled_run later _ _ Hc' ltac:(by rewrite Hstep))
        as (R1 & _ & _ & R4 & _).
      eexists. unfold outcome. rewrite R1. split; [reflexivity|].
      split; [done|]. rewrite R4, Hstep. done.
Qed.


(** *** The timer fires first *)




(** *** The transport fails *)

(** C2, as stated, fails: the request is rejected after 10 ms, long before
    the timer and with no cancellation by the function, with an error
    whose name happens to be AbortError; the function replaces it by its
    timeout error. *)
Lemma surfaced_unchanged_counterexample :
  status (fetchWithTimeout sample_url None None [Elapse 10] sample_platform)
  = Awaiting
  ∧ aborted (fetchWithTimeout sample_url None None [Elapse 10] sample_platform)
    = false
  ∧ timer (fetchWithTimeout sample_url None None [Elapse 10] sample_platform)
    = Scheduled
  ∧ outcome (fetchWithTimeout sample_url None None
               [Elapse 10; Reject early_abort_error] sample_platform)
    = Some (ThrewTimeout 1)
  ∧ ¬ surfaced_unchanged early_abort_error
        (fetchWithTimeout sample_url None None [Elapse 10] sample_platform).
Proof.
  repeat split; try by vm_compute.
  intros (l & _ & Hout & _). vm_compute in Hout. discriminate.
Qed.

(** C2, amended.  In every invocation in which the transport fails with an
    error whose name is not AbortError, the function fails with that very
    error object, its contents untouched and no other object created, and
    [clearTimeout] has been called: the timer is no longer scheduled. *)
Theorem rethrows_other_errors url options timeout evs p reason :
  let st := fetchWithTimeout url options timeout evs p in
  status st = Awaiting →
  name reason ≠ "AbortError" →
  surfaced_unchanged reason st.
Proof.
  intros st Hs Hname. unfold surfaced_unchanged.
  destruct (step_Reject st reason Hs) as [Hnew Hstep].
  cbn zeta in Hstep. rewrite Hstep.
  unfold abort_error. rewrite bool_decide_eq_false_2 by done.
  eexists. split; [exact Hnew|]. repeat split.
  unfold timer_pending. simpl. by destruct (timer st).
Qed.

Lemma rethrows_other_errors_witness :
  surfaced_unchanged network_error
    (fetchWithTimeout sample_url None None [Elapse 10] sample_platform).
Proof.
  apply (rethrows_other_errors sample_url None None [Elapse 10] sample_platform).
  - by vm_compute.
  - simpl. congruence.
Defined.

(** *** The request completes first *)

(** C3. In every invocation in which the request is fulfilled while the
    timer is still scheduled, the function returns the very value the
    transport fulfilled the request with, the platform's objects are as
    they were, and the timer is cancelled: whatever the event loop does
    afterwards, the callback never runs and no abort signal is sent. *)
Theorem returns_raw_response url options timeout evs p response later :
  let st := fetchWithTimeout url options timeout evs p in
  status st = Awaiting →
  timer st = Scheduled →
  let st' := run later (step st (Fulfil response)) in
  outcome st' = Some (Returned response)
  ∧ platform st' = platform st
  ∧ timer st' = Cleared
  ∧ timers_cleared st' = 1%nat
  ∧ abort_signals st' = 0%nat.
Proof.
  intros st Hs Ht st'.
  pose proof (consistent_fetchWithTimeout url options timeout evs p) as Hc.
  fold st in Hc.
  pose proof (consistent_step st (Fulfil response) Hc) as Hc'.
  destruct (settled_run later _ (Returned response) Hc')
    as (R1 & R2 & R3 & R4 & R5).
  { by rewrite step_Fulfil. }
  subst st'. unfold outcome. rewrite R1, R2, R3, R4, R5.
  rewrite step_Fulfil by done. simpl. rewrite Ht.
  destruct Hc as [_ Hc]. rewrite Hs, Ht in Hc. by destruct Hc as [-> ->].
Qed.

Lemma returns_raw_response_witness :
  outcome
    (run [Elapse 50; TimerDue]
       (step (fetchWithTimeout sample_url None (Some 100) [Elapse 50]
                sample_platform) (Fulfil (VObject 200))))
  = Some (Returned (VObject 200))
  ∧ timer
      (run [Elapse 50; TimerDue]
         (step (fetchWithTimeout sample_url None (Some 100) [Elapse 50]
                  sample_platform) (Fulfil (VObject 200))))
    = Cleared.
Proof.
  destruct (returns_raw_response sample_url None (Some 100) [Elapse 50]
              sample_platform (VObject 200) [Elapse 50; TimerDue])
    as (H1 & _ & H3 & _).
  - by vm_compute.
  - by vm_compute.
  - split; [exact H1 | exact H3].
Defined.

(** *** The options bag *)

(** C4, as stated, fails: a caller who sets [signal], an option the
    transport recognizes, does not find it in what the transport receives;
    the function has put the signal of its own controller there. *)
Lemma options_passed_through_counterexample :
  sample_options !! "signal" = Some (VSignal 0)
  ∧ request_init
      (fetchWithTimeout_start sample_url (Some sample_options) None
         sample_platform) !! "signal"
    = Some (VSignal 1)
  ∧ ¬ options_passed_through sample_options
        (fetchWithTimeout_start sample_url (Some sample_options) None
           sample_platform).
Proof.
  split; [by vm_compute|]. split; [by vm_compute|].
  intros H. specialize (H "signal" (VSignal 0)).
  vm_compute in H. specialize (H eq_refl). discriminate.
Qed.

(** C4, amended.  The transport receives the caller's locator and, for
    every option other than [signal], exactly what the caller set (and
    nothing where the caller set nothing); [signal] is always the signal
    of the controller that the invocation created, whatever the caller put
    there.  This holds from the call to the end of the invocation. *)
Theorem options_passed_except_signal url options timeout evs p k :
  k ≠ "signal" →
  let st := fetchWithTimeout url options timeout evs p in
  request_url st = url
  ∧ request_init st !! k = default ∅ options !! k
  ∧ request_init st !! "signal" = Some (VSignal (controllers p))
  ∧ controller st = controllers p
  ∧ controllers (platform (fetchWithTimeout_start url options timeout p))
    = S (controllers p).
Proof.
  intros Hk st. subst st. unfold fetchWithTimeout.
  destruct (run_frame evs (fetchWithTimeout_start url options timeout p))
    as (-> & -> & -> & _).
  simpl. by rewrite lookup_insert_eq, lookup_insert_ne.
Qed.

Lemma options_passed_except_signal_witness :
  request_init
    (fetchWithTimeout sample_url (Some sample_options) None
       [Elapse 20; Fulfil (VObject 200)] sample_platform) !! "method"
  = sample_options !! "method"
  ∧ request_init
      (fetchWithTimeout sample_url (Some sample_options) None
         [Elapse 20; Fulfil (VObject 200)] sample_platform) !! "signal"
    = Some (VSignal 1).
Proof.
  destruct (options_passed_except_signal sample_url (Some sample_options) None
              [Elapse 20; Fulfil (VObject 200)] sample_platform "method")
    as (_ & H2 & H3 & _).
  - vm_compute. congruence.
  - split; [exact H2 | exact H3].
Defined.

(** *** The timer on every way out *)

(** C5. Every invocation sets exactly one timer.  While the function is
    suspended it has not called [clearTimeout]; once it has returned or
    thrown, on whichever of its three ways out, it has called
    [clearTimeout] exactly once and the timer is not scheduled any more. *)
Theorem timer_never_leaks url options timeout evs p :
  let st := fetchWithTimeout url options timeout evs p in
  timers_set st = 1%nat
  ∧ match outcome st with
    | Some _ => timers_cleared st = 1%nat ∧ timer_pending st = false
    | None => timers_cleared st = 0%nat
    end.
Proof.
  intros st.
  destruct (consistent_fetchWithTimeout url options timeout evs p) as [Hset Hc].
  fold st in Hset, Hc. split; [done|].
  unfold outcome, timer_pending.
  destruct (status st), (timer st); simpl; intuition.
Qed.

(** *** Two invocations *)

Lemma alike_step st1 st2 ev :
  alike st1 st2 → alike (step st1 ev) (step st2 ev).
Proof.
  intros (Hnow & Htimer & Hdelay & Hab & Hkind).
  assert (Hstatus : status st1 = Awaiting ↔ status st2 = Awaiting).
  { unfold outcome in Hkind. by destruct (status st1), (status st2). }
  destruct ev as [ms| |response|reason].
  - unfold alike. simpl. repeat split; try done. by rewrite Hnow.
  - unfold step, timer_ready. rewrite Htimer, Hdelay, Hnow.
    destruct (_ && _); [|done].
    unfold alike, timer_callback, aborted. simpl. by rewrite Hab.
  - destruct (status st1) eqn:Hs1.
    + rewrite !step_Fulfil by tauto.
      unfold alike. simpl. by rewrite Htimer.
    + unfold step. rewrite Hs1. destruct (status st2) eqn:Hs2; [|done].
      destruct Hstatus as [_ Hstatus]. by specialize (Hstatus eq_refl).
  - destruct (status st1) eqn:Hs1.
    + destruct (step_Reject st1 reason Hs1) as [_ ->].
      destruct (step_Reject st2 reason (proj1 Hstatus eq_refl)) as [_ ->].
      unfold alike. destruct (abort_error reason); simpl; by rewrite Htimer.
    + unfold step. rewrite Hs1. destruct (status st2) eqn:Hs2; [|done].
      destruct Hstatus as [_ Hstatus]. by specialize (Hstatus eq_refl).
Qed.

Lemma alike_run evs st1 st2 :
  alike st1 st2 → alike (run evs st1) (run evs st2).
Proof.
  revert st1 st2. induction evs as [|ev evs IH]; intros st1 st2 H; [done|].
  apply IH. by apply alike_step.
Qed.

(** Given the same events, the kind of outcome does not depend on what
    the platform holds. *)
Lemma kind_whatever_the_platform url options timeout evs p1 p2 :
  kind <$> outcome (fetchWithTimeout url options timeout evs p1)
  = kind <$> outcome (fetchWithTimeout url options timeout evs p2).
Proof.
  unfold fetchWithTimeout.
  by apply (alike_run evs
              (fetchWithTimeout_start url options timeout p1)
              (fetchWithTimeout_start url options timeout p2)).
Qed.

(** C6, as stated, fails: two invocations with the same locator, options
    and timeout of 100 ms, from the same platform, against one transport
    that has its response ready at 100 ms and observes the signal.  At
    100 ms the timer and the response are both due.  The event loop
    delivering the response first, the function returns it; the event loop
    running the timer first, the transport rejects and the function throws
    its timeout error. *)
Lemma same_kind_counterexample :
  answers racing_transport sample_url ∅
    (fetchWithTimeout sample_url None (Some 100) [Elapse 100] sample_platform)
    (Fulfilled (VObject 200)) = true
  ∧ answers racing_transport sample_url ∅
      (fetchWithTimeout sample_url None (Some 100) [Elapse 100; TimerDue]
         sample_platform)
      (Rejected (mkError "AbortError" "The operation was aborted.")) = true
  ∧ kind <$> outcome
               (fetchWithTimeout sample_url None (Some 100)
                  ([Elapse 100] ++ [settle (Fulfilled (VObject 200))])
                  sample_platform)
    = Some Success
  ∧ kind <$> outcome
               (fetchWithTimeout sample_url None (Some 100)
                  ([Elapse 100; TimerDue]
                   ++ [settle (Rejected (mkError "AbortError"
                                           "The operation was aborted."))])
                  sample_platform)
    = Some TimedOut.
Proof. repeat split; by vm_compute. Qed.

(** C6, amended.  Two invocations with the same locator, options and
    timeout against a deterministic transport, in which the signal is
    aborted when the request settles in both or in neither (the timer has
    fired before the settlement in both or in neither): both return or
    throw, with outcomes of the same kind, whatever the platform held
    when each was made, whenever each settlement is delivered and whatever
    follows it. *)
Theorem same_kind_same_race (T : Transport) url options timeout
    pre1 pre2 s1 s2 later1 later2 p1 p2 :
  status (fetchWithTimeout url options timeout pre1 p1) = Awaiting →
  status (fetchWithTimeout url options timeout pre2 p2) = Awaiting →
  answers T url (default ∅ options)
    (fetchWithTimeout url options timeout pre1 p1) s1 = true →
  answers T url (default ∅ options)
    (fetchWithTimeout url options timeout pre2 p2) s2 = true →
  aborted (fetchWithTimeout url options timeout pre1 p1)
  = aborted (fetchWithTimeout url options timeout pre2 p2) →
  ∃ o1 o2,
    outcome (fetchWithTimeout url options timeout
               (pre1 ++ settle s1 :: later1) p1) = Some o1
    ∧ outcome (fetchWithTimeout url options timeout
                 (pre2 ++ settle s2 :: later2) p2) = Some o2
    ∧ kind o1 = kind o2.
Proof.
  intros Hs1 Hs2 Ha1 Ha2 Hab.
  assert (Heq : s1 = s2).
  { unfold answers in Ha1, Ha2. rewrite Hab in Ha1.
    destruct (T url (default ∅ options) _) as [[ready s]|]; [|done].
    apply andb_true_iff in Ha1 as [Ha1 _].
    apply andb_true_iff in Ha2 as [Ha2 _].
    apply bool_decide_eq_true in Ha1. apply bool_decide_eq_true in Ha2.
    congruence. }
  subst s2. unfold fetchWithTimeout in *. rewrite !run_app.
  destruct (settled_by _ s1 later1
              (consistent_run pre1 _ (consistent_start url options timeout p1))
              Hs1) as (o1 & Ho1 & Hk1 & _).
  destruct (settled_by _ s1 later2
              (consistent_run pre2 _ (consistent_start url options timeout p2))
              Hs2) as (o2 & Ho2 & Hk2 & _).
  exists o1, o2. split; [exact Ho1|]. split; [exact Ho2|]. congruence.
Qed.

Lemma same_kind_same_race_witness :
  ∃ o1 o2,
    outcome (fetchWithTimeout sample_url None (Some 100)
               ([Elapse 100] ++ settle (Fulfilled (VObject 200)) :: [])
               sample_platform) = Some o1
    ∧ outcome (fetchWithTimeout sample_url None (Some 100)
                 ([Elapse 60; Elapse 70]
                  ++ settle (Fulfilled (VObject 200)) :: [TimerDue])
                 (mkPlatform ∅ 5)) = Some o2
    ∧ kind o1 = kind o2.
Proof.
  apply (same_kind_same_race racing_transport sample_url None (Some 100)
           [Elapse 100] [Elapse 60; Elapse 70]
           (Fulfilled (VObject 200)) (Fulfilled (VObject 200))
           [] [TimerDue] sample_platform (mkPlatform ∅ 5));
    by vm_compute.
Defined.

(** *** A timeout of zero or less *)

(** C7. A timeout of zero or less is not checked: the call goes through
    like any other, the request is sent and the function is suspended at
    its [await], and the timer is scheduled with the delay as given.  The
    timer is due at once, so the race is open from the start: the callback
    runs as soon as the event loop picks the timer, and the response is
    returned if the request is fulfilled before that. *)
Theorem nonpositive_timeout_unchecked url options timeout p :
  timeout ≤ 0 →
  let st := fetchWithTimeout_start url options (Some timeout) p in
  status st = Awaiting
  ∧ timer st = Scheduled
  ∧ timer_delay st = timeout
  ∧ request_url st = url
  ∧ timer_ready st = true
  ∧ aborted (step st TimerDue) = true
  ∧ ∀ response,
      outcome (step st (Fulfil response)) = Some (Returned response).
Proof.
  intros Hle st. subst st. repeat split.
  - unfold timer_ready. simpl. by rewrite bool_decide_eq_true_2.
  - unfold step, timer_ready. simpl. by rewrite bool_decide_eq_true_2.
Qed.

Lemma nonpositive_timeout_unchecked_witness :
  status (fetchWithTimeout_start sample_url None (Some (-250)) sample_platform)
  = Awaiting
  ∧ timer_ready
      (fetchWithTimeout_start sample_url None (Some (-250)) sample_platform)
    = true.
Proof.
  destruct (nonpositive_timeout_unchecked sample_url None (-250)
              sample_platform) as (H1 & _ & _ & _ & H5 & _).
  - lia.
  - split; [exact H1 | exact H5].
Defined.

(** With a positive timeout the timer is not due when the call returns. *)
Lemma positive_timeout_not_due url options timeout p :
  0 < timeout →
  timer_ready (fetchWithTimeout_start url options (Some timeout) p) = false.
Proof.
  intros H. unfold timer_ready. simpl. by rewrite bool_decide_eq_false_2 by lia.
Qed.

(** *** The scenarios of the specification *)

(** Timeout 100 ms, the transport fulfils at 50 ms: the response is
    returned and the timer is cancelled. *)
Example scenario_response_in_time :
  outcome (fetchWithTimeout sample_url None (Some 100)
             [Elapse 50; Fulfil (VObject 200)] sample_platform)
  = Some (Returned (VObject 200))
  ∧ timer (fetchWithTimeout sample_url None (Some 100)
             [Elapse 50; Fulfil (VObject 200)] sample_platform)
    = Cleared.
Proof. by vm_compute. Qed.

(** Timeout 100 ms, the transport still busy then and observing the
    signal: the function throws a new object, its timeout error. *)
Example scenario_timeout :
  outcome (fetchWithTimeout sample_url None (Some 100) observed_abort
             sample_platform)
  = Some (ThrewTimeout 1)
  ∧ errors (platform (fetchWithTimeout sample_url None (Some 100)
                        observed_abort sample_platform)) !! 1%nat
    = Some timeout_error.
Proof. by vm_compute. Qed.

(** The timer cannot fire before its delay has elapsed. *)
Example scenario_timer_too_early :
  timer_fires [Elapse 99; TimerDue]
    (fetchWithTimeout_start sample_url None (Some 100) sample_platform)
  = false.
Proof. by vm_compute. Qed.

(** The transport rejects at once with a network error: that very object
    is thrown and the timer is cancelled. *)
Example scenario_network_error :
  outcome (fetchWithTimeout sample_url None None [Reject network_error]
             sample_platform)
  = Some (Rethrew 0)
  ∧ errors (platform (fetchWithTimeout sample_url None None
                        [Reject network_error] sample_platform)) !! 0%nat
    = Some network_error
  ∧ timer (fetchWithTimeout sample_url None None [Reject network_error]
             sample_platform)
    = Cleared.
Proof. by vm_compute. Qed.

(** Left alone by a transport that never settles, the function stays
    suspended, timer fired or not. *)
Example scenario_never_settles :
  outcome (fetchWithTimeout sample_url None (Some 100)
             [Elapse 100; TimerDue; Elapse 100000] sample_platform)
  = None.
Proof. by vm_compute. Qed.

(** * Properties of the other helpers *)

(** ** Regular expressions *)

Lemma nullable_matches r : RegExp.nullable r = true ↔ RegExp.matches r [].
Proof.
  split.
  - induction r; simpl; intros H; try done.
    + constructor.
    + apply andb_true_iff in H as [H1 H2].
      apply (RegExp.matches_Seq _ _ [] []); auto.
    + apply orb_true_iff in H as [H|H];
        [apply RegExp.matches_Alt_l | apply RegExp.matches_Alt_r]; auto.
    + constructor.
  - intros H. remember [] as s eqn:Hs.
    induction H; simpl; try done.
    + apply app_eq_nil in Hs as [-> ->]. rewrite IHmatches1, IHmatches2; done.
    + by rewrite IHmatches.
    + rewrite IHmatches by done. by rewrite orb_true_r.
Qed.

Lemma star_cons_inv r c s :
  RegExp.matches (RegExp.Star r) (c :: s) →
  ∃ s1 s2, s = s1 ++ s2 ∧ RegExp.matches r (c :: s1)
           ∧ RegExp.matches (RegExp.Star r) s2.
Proof.
  intros H. remember (RegExp.Star r) as r' eqn:Hr.
  remember (c :: s) as cs eqn:Hcs.
  induction H; try done. simplify_eq.
  destruct s1 as [|c1 s1]; simpl in *.
  - by apply IHmatches2.
  - simplify_eq. by exists s1, s2.
Qed.

Lemma seq_inv r1 r2 s :
  RegExp.matches (RegExp.Seq r1 r2) s →
  ∃ s1 s2, s = s1 ++ s2 ∧ RegExp.matches r1 s1 ∧ RegExp.matches r2 s2.
Proof. inversion 1; subst; eauto. Qed.

Lemma alt_inv r1 r2 s :
  RegExp.matches (RegExp.Alt r1 r2) s →
  RegExp.matches r1 s ∨ RegExp.matches r2 s.
Proof. inversion 1; subst; eauto. Qed.

Lemma class_inv p s :
  RegExp.matches (RegExp.Class p) s → ∃ c, s = [c] ∧ p c = true.
Proof. inversion 1; subst; eauto. Qed.

Lemma derive_matches c r s :
  RegExp.matches (RegExp.derive c r) s ↔ RegExp.matches r (c :: s).
Proof.
  revert s. induction r as [| |p|r1 IH1 r2 IH2|r1 IH1 r2 IH2|r IH]; intros s; simpl.
  - split; inversion 1.
  - split; inversion 1.
  - destruct (p c) eqn:Hp; split; intros H.
    + inversion H; subst. by constructor.
    + apply class_inv in H as (c' & ? & ?). simplify_eq. constructor.
    + inversion H.
    + apply class_inv in H as (c' & ? & ?). simplify_eq. congruence.
  - assert (Hseq : RegExp.matches (RegExp.Seq (RegExp.derive c r1) r2) s
                   → RegExp.matches (RegExp.Seq r1 r2) (c :: s)).
    { intros H. apply seq_inv in H as (s1 & s2 & -> & H1 & H2).
      apply IH1 in H1. by apply (RegExp.matches_Seq _ _ (c :: s1) s2). }
    assert (Hinv : RegExp.matches (RegExp.Seq r1 r2) (c :: s) →
                   RegExp.matches (RegExp.Seq (RegExp.derive c r1) r2) s
                   ∨ (RegExp.matches r1 [] ∧ RegExp.matches r2 (c :: s))).
    { intros H. apply seq_inv in H as (s1 & s2 & Heq & H1 & H2).
      destruct s1 as [|c1 s1]; simpl in *; simplify_eq.
      - by right.
      - left. constructor; [by apply IH1 | done]. }
    destruct (RegExp.nullable r1) eqn:Hn; split.
    + intros H. apply alt_inv in H as [H|H]; [by apply Hseq|].
      apply (RegExp.matches_Seq _ _ [] (c :: s)); [by apply nullable_matches|].
      by apply IH2.
    + intros H. destruct (Hinv H) as [H1|[_ H2]].
      * by apply RegExp.matches_Alt_l.
      * apply RegExp.matches_Alt_r. by apply IH2.
    + apply Hseq.
    + intros H. destruct (Hinv H) as [H1|[H1 _]]; [done|].
      apply nullable_matches in H1. congruence.
  - split; intros H.
    + apply alt_inv in H as [H|H];
        [apply RegExp.matches_Alt_l, IH1 | apply RegExp.matches_Alt_r, IH2]; done.
    + apply alt_inv in H as [H|H];
        [apply RegExp.matches_Alt_l, IH1 | apply RegExp.matches_Alt_r, IH2]; done.
  - split; intros H.
    + apply seq_inv in H as (s1 & s2 & -> & H1 & H2). apply IH in H1.
      by apply (RegExp.matches_Star_cons _ (c :: s1) s2).
    + apply star_cons_inv in H as (s1 & s2 & -> & H1 & H2).
      constructor; [by apply IH | done].
Qed.

Lemma test_anchored_matches r s :
  RegExp.test_anchored r s = true ↔ RegExp.matches r s.
Proof.
  revert r. induction s as [|c s IH]; intros r; simpl.
  - apply nullable_matches.
  - rewrite IH. apply derive_matches.
Qed.

(** ** [validateEmail] *)

Lemma star_class_matches p s :
  RegExp.matches (RegExp.Star (RegExp.Class p)) s
  ↔ Forall (λ c, p c = true) s.
Proof.
  split.
  - intros H. remember (RegExp.Star (RegExp.Class p)) as r eqn:Hr.
    induction H; simplify_eq; [constructor|].
    apply class_inv in H as (c & -> & Hc). constructor; auto.
  - induction 1 as [|c s Hc _ IH]; [constructor|].
    apply (RegExp.matches_Star_cons _ [c] s); [by constructor | done].
Qed.

Lemma plus_class_matches p s :
  RegExp.matches (RegExp.Plus (RegExp.Class p)) s
  ↔ s ≠ [] ∧ Forall (λ c, p c = true) s.
Proof.
  unfold RegExp.Plus. split.
  - intros H. apply seq_inv in H as (s1 & s2 & -> & H1 & H2).
    apply class_inv in H1 as (c & -> & Hc). apply star_class_matches in H2.
    split; [done|]. by constructor.
  - intros [Hne H]. destruct H as [|c s Hc H]; [done|].
    apply (RegExp.matches_Seq _ _ [c] s); [by constructor|].
    by apply star_class_matches.
Qed.

Lemma validateEmail_parts email :
  validateEmail email = true →
  ∃ loc dom tld,
    email = loc ++ [64%N] ++ dom ++ [46%N] ++ tld
    ∧ loc ≠ [] ∧ dom ≠ [] ∧ tld ≠ []
    ∧ Forall (λ c, not_space_or_at c = true) (loc ++ dom ++ tld).
Proof.
  unfold validateEmail. rewrite test_anchored_matches. unfold emailRegex.
  intros H.
  apply seq_inv in H as (loc & s1 & -> & Hloc & H).
  apply seq_inv in H as (at_ & s2 & -> & Hat & H).
  apply seq_inv in H as (dom & s3 & -> & Hdom & H).
  apply seq_inv in H as (dot & tld & -> & Hdot & Htld).
  apply class_inv in Hat as (c1 & -> & Hc1).
  apply class_inv in Hdot as (c2 & -> & Hc2).
  apply bool_decide_eq_true in Hc1 as ->.
  apply bool_decide_eq_true in Hc2 as ->.
  apply plus_class_matches in Hloc as [? ?].
  apply plus_class_matches in Hdom as [? ?].
  apply plus_class_matches in Htld as [? ?].
  exists loc, dom, tld. rewrite !Forall_app. done.
Qed.

(** X1. The strings the test accepts are exactly these: a local part, one
    [@], and after it two more parts separated by a dot; each part is
    non-empty and free of white space and of [@] (dots are allowed
    anywhere in the parts). *)
Theorem validateEmail_shape email :
  validateEmail email = true
  ↔ ∃ loc dom tld,
      email = loc ++ [64%N] ++ dom ++ [46%N] ++ tld
      ∧ loc ≠ [] ∧ dom ≠ [] ∧ tld ≠ []
      ∧ Forall (λ c, not_space_or_at c = true) (loc ++ dom ++ tld).
Proof.
  split; [apply validateEmail_parts|].
  unfold validateEmail. rewrite test_anchored_matches. unfold emailRegex.
  intros (loc & dom & tld & -> & ? & ? & ? & Hall).
  rewrite !Forall_app in Hall. destruct Hall as (? & ? & ?).
  repeat (apply RegExp.matches_Seq);
    try (by apply plus_class_matches); by constructor.
Qed.

Lemma filter_at_clean (s : list N) :
  Forall (λ c, not_space_or_at c = true) s →
  filter (λ c, c = 64%N) s = [].
Proof.
  induction 1 as [|c s Hc _ IH]; [done|].
  rewrite filter_cons_False; [done|].
  intros ->. unfold not_space_or_at in Hc.
  rewrite bool_decide_eq_true_2, orb_true_r in Hc by done. done.
Qed.

(** X2. What every accepted string has: no white space at all, exactly one
    [@], which is not its first code unit, and at least five code units. *)
Theorem validateEmail_accepts_only email :
  validateEmail email = true →
  Forall (λ c, is_space c = false) email
  ∧ length (filter (λ c, c = 64%N) email) = 1%nat
  ∧ head email ≠ Some 64%N
  ∧ (5 ≤ length email)%nat.
Proof.
  intros H. apply validateEmail_parts in H
    as (loc & dom & tld & -> & Hloc & Hdom & Htld & Hall).
  rewrite !Forall_app in Hall. destruct Hall as (Hl & Hd & Ht).
  assert (Hclean : ∀ s, Forall (λ c, not_space_or_at c = true) s →
                        Forall (λ c, is_space c = false) s).
  { intros s Hs. eapply Forall_impl; [exact Hs|]. intros c Hc. simpl in Hc.
    unfold not_space_or_at in Hc.
    apply negb_true_iff, orb_false_iff in Hc. tauto. }
  split; [|split; [|split]].
  - rewrite !Forall_app.
    split; [auto|]. split; [by repeat constructor|].
    split; [auto|]. split; [by repeat constructor | auto].
  - rewrite !filter_app.
    rewrite (filter_at_clean loc), (filter_at_clean dom),
      (filter_at_clean tld) by done.
    by vm_compute.
  - destruct loc as [|c loc]; [done|]. simpl. inversion Hl; subst.
    intros [= ->]. done.
  - rewrite !length_app. simpl.
    destruct loc, dom, tld; simpl; try done; lia.
Qed.

Lemma validateEmail_accepts_only_witness :
  validateEmail (JsString.lit "test@example.com") = true
  ∧ length (filter (λ c, c = 64%N) (JsString.lit "test@example.com")) = 1%nat.
Proof.
  split; [by vm_compute|].
  apply (validateEmail_accepts_only (JsString.lit "test@example.com")).
  by vm_compute.
Defined.

Example validateEmail_permissive :
  validateEmail (JsString.lit "a@.b..") = true
  ∧ validateEmail (JsString.lit "a@b") = false
  ∧ validateEmail (JsString.lit "a b@c.d") = false
  ∧ validateEmail (JsString.lit "a@b@c.d") = false.
Proof. by vm_compute. Qed.

(** ** [getTimeElapsed] *)

Lemma elapsed_phrase_not_just_now interval unit :
  elapsed_phrase interval unit ≠ just_now.
Proof.
  intros H. apply (f_equal head) in H.
  unfold elapsed_phrase, just_now in H. cbn in H. discriminate.
Qed.

Lemma getTimeElapsed_under_a_minute now date :
  getTimeElapsed now date = just_now ↔ now - date < 60000.
Proof.
  unfold getTimeElapsed. set (seconds := (now - date) / 1000).
  assert (Hs : now - date < 60000 ↔ seconds < 60).
  { subst seconds. split; intros H.
    - apply Z.div_lt_upper_bound; lia.
    - pose proof (Z.mul_div_le (now - date) 1000).
      pose proof (Z.mod_pos_bound (now - date) 1000).
      pose proof (Z.div_mod (now - date) 1000). lia. }
  rewrite Hs. clear Hs. generalize seconds. clear. intros seconds.
  unfold intervals, getTimeElapsed_loop.
  split.
  - intros H. destruct (decide (seconds < 60)) as [|Hge]; [done|]. exfalso.
    repeat (case_decide; [by eapply elapsed_phrase_not_just_now|]).
    assert (1 ≤ seconds / 60) by (apply Z.div_le_lower_bound; lia). lia.
  - intros H.
    repeat (rewrite decide_False;
            [|apply Z.lt_nge, Z.div_lt_upper_bound; lia]).
    done.
Qed.

(** X3. For an Invalid Date the answer is the fixed "just now" string.
    For a valid date no more than 2^52 ms away from the current time, the
    answer is that string exactly when less than a full minute has
    elapsed, which includes the dates in the future. *)
Theorem getTimeElapsed_just_now now time :
  Z.abs (now - time) ≤ exact_span →
  getTimeElapsed_Date now None = just_now
  ∧ (getTimeElapsed_Date now (Some time) = just_now ↔ now - time < 60000).
Proof.
  intros _. split; [reflexivity|]. apply getTimeElapsed_under_a_minute.
Qed.

Lemma getTimeElapsed_just_now_witness :
  getTimeElapsed_Date 1717200000000 None = just_now
  ∧ (getTimeElapsed_Date 1717200000000 (Some 1717199950000) = just_now
     ↔ 1717200000000 - 1717199950000 < 60000).
Proof.
  apply (getTimeElapsed_just_now 1717200000000 1717199950000).
  by vm_compute.
Defined.

Lemma getTimeElapsed_loop_hit seconds unit u entries :
  0 < u → u ≤ seconds →
  getTimeElapsed_loop seconds ((unit, u) :: entries)
  = elapsed_phrase (seconds / u) unit.
Proof.
  intros Hu Hle. simpl. rewrite decide_True; [done|].
  apply Z.div_le_lower_bound; lia.
Qed.

Lemma getTimeElapsed_loop_skip seconds unit u entries :
  0 < u → seconds < u →
  getTimeElapsed_loop seconds ((unit, u) :: entries)
  = getTimeElapsed_loop seconds entries.
Proof.
  intros Hu Hlt. simpl. rewrite decide_False; [done|].
  apply Z.lt_nge, Z.div_lt_upper_bound; lia.
Qed.

Lemma div_between seconds u cap :
  0 < u → u ≤ seconds → seconds < u * (cap + 1) →
  1 ≤ seconds / u ≤ cap.
Proof.
  intros Hu Hle Hlt. split.
  - apply Z.div_le_lower_bound; lia.
  - apply Z.lt_succ_r, Z.div_lt_upper_bound; lia.
Qed.

(** X4. For a date no more than 2^52 ms away from the current time: the
    unit reported is the largest that fits into the whole seconds elapsed,
    the count is the whole number of such units, and below the year the
    count has a ceiling: 12 months, 4 weeks, 6 days, 23 hours,
    59 minutes. *)
Theorem getTimeElapsed_units now date :
  Z.abs (now - date) ≤ exact_span →
  let seconds := (now - date) / 1000 in
  let report n unit :=
    getTimeElapsed now date = elapsed_phrase n (JsString.lit unit) in
  (31536000 ≤ seconds →
     1 ≤ seconds / 31536000
     ∧ getTimeElapsed now date
       = elapsed_phrase (seconds / 31536000)
           (JsString.lit "ann" ++ [233%N] ++ JsString.lit "e"))
  ∧ (2592000 ≤ seconds < 31536000 →
     1 ≤ seconds / 2592000 ≤ 12 ∧ report (seconds / 2592000) "mois")
  ∧ (604800 ≤ seconds < 2592000 →
     1 ≤ seconds / 604800 ≤ 4 ∧ report (seconds / 604800) "semaine")
  ∧ (86400 ≤ seconds < 604800 →
     1 ≤ seconds / 86400 ≤ 6 ∧ report (seconds / 86400) "jour")
  ∧ (3600 ≤ seconds < 86400 →
     1 ≤ seconds / 3600 ≤ 23 ∧ report (seconds / 3600) "heure")
  ∧ (60 ≤ seconds < 3600 →
     1 ≤ seconds / 60 ≤ 59 ∧ report (seconds / 60) "minute").
Proof.
  intros _ seconds report. subst report. unfold getTimeElapsed. fold seconds.
  generalize seconds. clear. intros seconds. unfold intervals.
  repeat split; try (apply div_between; lia);
    try (apply Z.div_le_lower_bound; lia).
  all: repeat (rewrite getTimeElapsed_loop_skip by lia).
  all: by rewrite getTimeElapsed_loop_hit by lia.
Qed.

Lemma getTimeElapsed_units_witness :
  getTimeElapsed 1717200000000 1704067200000
  = elapsed_phrase 5 (JsString.lit "mois").
Proof.
  destruct (getTimeElapsed_units 1717200000000 1704067200000)
    as (_ & Hmois & _); [by vm_compute|].
  destruct Hmois as [_ H]; [by vm_compute|].
  exact H.
Defined.

(** X5. Between two months and a year the unit is printed with an [s] added
    to a word that already ends in one. *)
Theorem getTimeElapsed_months_plural now date :
  5184000 ≤ (now - date) / 1000 < 31536000 →
  getTimeElapsed now date
  = JsString.lit "Il y a "
    ++ number_to_string ((now - date) / 1000 / 2592000)
    ++ JsString.lit " moiss".
Proof.
  intros H. unfold getTimeElapsed, intervals.
  rewrite getTimeElapsed_loop_skip, getTimeElapsed_loop_hit by lia.
  unfold elapsed_phrase. rewrite decide_True.
  - by do 2 f_equal.
  - assert (2 ≤ (now - date) / 1000 / 2592000)
      by (apply Z.div_le_lower_bound; lia).
    lia.
Qed.

Lemma getTimeElapsed_months_plural_witness :
  getTimeElapsed 1717200000000 1704067200000 = JsString.lit "Il y a 5 moiss".
Proof.
  rewrite (getTimeElapsed_months_plural 1717200000000 1704067200000).
  - by vm_compute.
  - by vm_compute.
Defined.

(** ** [isEmptyObject] *)

Lemma for_in_chain_unvisited visited chain k :
  k ∈ for_in_chain visited chain → k ∉ visited.
Proof.
  revert visited. induction chain as [|table chain IH]; intros visited; simpl.
  - by intros ?%elem_of_nil.
  - rewrite elem_of_app. intros [H|H].
    + apply list_elem_of_fmap in H as ([k' v] & -> & H).
      apply elem_of_map_to_list, map_lookup_filter_Some in H as [_ [_ H]].
      done.
    + apply IH in H. set_solver.
Qed.

Lemma isEmptyObject_loop_true obj props :
  isEmptyObject_loop obj props = true
  ↔ ∀ k, k ∈ props → own obj !! k = None.
Proof.
  induction props as [|prop props IH]; simpl.
  - split; [by intros _ k ?%elem_of_nil | done].
  - unfold hasOwn. case_bool_decide as Hown.
    + split; [done|]. intros H. specialize (H prop (list_elem_of_here _ _)).
      rewrite H in Hown. by destruct Hown.
    + rewrite IH. split.
      * intros H k [->|Hk]%elem_of_cons; [|by apply H].
        by apply eq_None_not_Some.
      * intros H k Hk. apply H. by right.
Qed.

(** X6. An object counts as empty exactly when it has no own enumerable
    string-keyed property: what it inherits, and what it owns without
    being enumerable, is not looked at. *)
Theorem isEmptyObject_spec obj :
  isEmptyObject (Some obj) = true ↔ ∀ k, own obj !! k ≠ Some true.
Proof.
  unfold isEmptyObject, for_in. rewrite isEmptyObject_loop_true.
  cbn [for_in_chain]. split.
  - intros H k Hk. specialize (H k). rewrite H in Hk; [done|].
    apply elem_of_app. left. apply list_elem_of_fmap. exists (k, true).
    split; [done|]. apply elem_of_map_to_list, map_lookup_filter_Some.
    split; [done|]. simpl. split; [done | set_solver].
  - intros H k [Hk|Hk]%elem_of_app.
    + apply list_elem_of_fmap in Hk as ([k' v] & -> & Hk).
      apply elem_of_map_to_list, map_lookup_filter_Some in Hk
        as [Hk [Hv _]].
      simpl in *. subst v. by destruct (H k').
    + apply for_in_chain_unvisited in Hk.
      apply not_elem_of_dom. set_solver.
Qed.

(** An array [[]] or a wrapped string has the own property [length], which
    is not enumerable; an object created from a prototype with enumerable
    properties inherits them. *)
Example isEmptyObject_samples :
  isEmptyObject None = true
  ∧ isEmptyObject (Some (mkObject {[ "length" := false ]} [∅])) = true
  ∧ isEmptyObject (Some (mkObject ∅ [ {[ "kind" := true ]}; ∅ ])) = true
  ∧ isEmptyObject (Some (mkObject {[ "kind" := true ]} [∅])) = false.
Proof. by vm_compute. Qed.

(** ** [groupBy] *)

Section GroupByFacts.
Context {A : Type} (property_key : A → string → option string).

Lemma groupBy_callback_None key acc x :
  (∀ k, k ∈ object_prototype_names → acc !! k = None) →
  groupBy_callback property_key key acc x = None
  ↔ throws_on property_key key x.
Proof.
  intros Hacc. unfold groupBy_callback, throws_on.
  destruct (property_key x key) as [groupKey|]; [|done].
  destruct (acc !! groupKey) as [group|] eqn:Hg.
  - split; [done|]. intros Hin. apply Hacc in Hin. congruence.
  - by case_decide.
Qed.

Lemma groupBy_callback_Some key acc x acc' :
  groupBy_callback property_key key acc x = Some acc' →
  ∃ groupKey,
    property_key x key = Some groupKey
    ∧ acc' = <[groupKey := default [] (acc !! groupKey) ++ [x]]> acc
    ∧ (acc !! groupKey = None → groupKey ∉ object_prototype_names).
Proof.
  unfold groupBy_callback.
  destruct (property_key x key) as [groupKey|]; [|done].
  destruct (acc !! groupKey) as [group|] eqn:Hg.
  - intros [= <-]. exists groupKey. by rewrite Hg.
  - case_decide; [done|]. intros [= <-]. exists groupKey. by rewrite Hg.
Qed.

Lemma groupBy_reduce_throws key (array : list A) acc :
  (∀ k, k ∈ object_prototype_names → acc !! k = None) →
  groupBy_reduce property_key key acc array = None
  ↔ ∃ x, x ∈ array ∧ throws_on property_key key x.
Proof.
  revert acc. induction array as [|x array IH]; intros acc Hacc; simpl.
  - split; [done|]. by intros (x & ?%elem_of_nil & _).
  - destruct (groupBy_callback property_key key acc x) as [acc'|] eqn:Hcb.
    + assert (Hx : ¬ throws_on property_key key x).
      { intros Hx. apply (groupBy_callback_None key acc x Hacc) in Hx.
        congruence. }
      apply groupBy_callback_Some in Hcb as (groupKey & Hk & -> & Hnew).
      rewrite IH.
      * split; intros (y & Hy & Hty); exists y.
        -- split; [by right | done].
        -- apply elem_of_cons in Hy as [->|Hy]; done.
      * intros k Hk'. rewrite lookup_insert_ne; [by apply Hacc|].
        intros <-. unfold throws_on in Hx. by rewrite Hk in Hx.
    + apply (groupBy_callback_None key acc x Hacc) in Hcb.
      split; [|done]. intros _. exists x. split; [by left | done].
Qed.

(** X7. The grouping throws exactly when, for some element, reading
    [current[key]] or converting it to a property name throws (as for an
    element that is [null] or [undefined]), or the key of the element is
    the name of a property that plain objects inherit. *)
Theorem groupBy_throws (array : list A) key :
  groupBy property_key array key = None
  ↔ ∃ x, x ∈ array
         ∧ match property_key x key with
           | None => True
           | Some groupKey => groupKey ∈ object_prototype_names
           end.
Proof. unfold groupBy. by apply groupBy_reduce_throws. Qed.

Lemma groupBy_reduce_groups key (array : list A) acc groups k :
  groupBy_reduce property_key key acc array = Some groups →
  default [] (groups !! k)
  = default [] (acc !! k)
    ++ filter (λ x, property_key x key = Some k) array.
Proof.
  revert acc. induction array as [|x array IH]; intros acc; simpl.
  - intros [= ->]. by rewrite app_nil_r.
  - destruct (groupBy_callback property_key key acc x) as [acc'|] eqn:Hcb;
      [|done].
    intros H. rewrite (IH _ H). clear IH H.
    apply groupBy_callback_Some in Hcb as (groupKey & Hk & -> & _).
    destruct (decide (groupKey = k)) as [->|Hne].
    + rewrite lookup_insert_eq. simpl.
      rewrite filter_cons_True by done. by rewrite <- app_assoc.
    + rewrite lookup_insert_ne by done.
      rewrite filter_cons_False; [done|]. rewrite Hk. congruence.
Qed.

Lemma groupBy_reduce_nonempty key (array : list A) acc groups :
  groupBy_reduce property_key key acc array = Some groups →
  (∀ k, acc !! k ≠ Some []) → ∀ k, groups !! k ≠ Some [].
Proof.
  revert acc. induction array as [|x array IH]; intros acc; simpl.
  - by intros [= ->].
  - destruct (groupBy_callback property_key key acc x) as [acc'|] eqn:Hcb;
      [|done].
    intros H Hacc. apply (IH _ H). clear IH H. intros k.
    apply groupBy_callback_Some in Hcb as (groupKey & Hk & -> & _).
    destruct (decide (groupKey = k)) as [->|Hne].
    + rewrite lookup_insert_eq. by destruct (default [] (acc !! k)).
    + by rewrite lookup_insert_ne.
Qed.

(** X8. When the grouping succeeds, the group under a name holds exactly
    the elements whose key is that name, in the order of the array; a name
    that is the key of no element has no group, so no group is empty. *)
Theorem groupBy_groups (array : list A) key groups k :
  groupBy property_key array key = Some groups →
  groups !! k
  = match filter (λ x, property_key x key = Some k) array with
    | [] => None
    | members => Some members
    end.
Proof.
  intros H. unfold groupBy in H.
  pose proof (groupBy_reduce_groups key array ∅ groups k H) as Hk.
  pose proof (groupBy_reduce_nonempty key array ∅ groups H) as Hne.
  rewrite lookup_empty in Hk. simpl in Hk. rewrite <- Hk.
  destruct (groups !! k) as [[|x members]|] eqn:Hg; simpl; try done.
  destruct (Hne ltac:(by intros k'; rewrite lookup_empty) k). done.
Qed.

Lemma grouped_count_insert (groups : gmap string (list A)) k group :
  (grouped_count (<[k := group]> groups)
   + length (default [] (groups !! k))
   = grouped_count groups + length group)%nat.
Proof.
  unfold grouped_count.
  destruct (groups !! k) as [old|] eqn:Hk; simpl.
  - rewrite <- (insert_delete_eq groups k group).
    rewrite <- (insert_id groups k old Hk) at 2.
    rewrite <- (insert_delete_eq groups k old).
    rewrite !map_to_list_insert by apply lookup_delete_eq.
    csimpl. lia.
  - rewrite map_to_list_insert by done. csimpl. lia.
Qed.

Lemma groupBy_reduce_count key (array : list A) acc groups :
  groupBy_reduce property_key key acc array = Some groups →
  grouped_count groups = (grouped_count acc + length array)%nat.
Proof.
  revert acc. induction array as [|x array IH]; intros acc; simpl.
  - intros [= ->]. lia.
  - destruct (groupBy_callback property_key key acc x) as [acc'|] eqn:Hcb;
      [|done].
    intros H. rewrite (IH _ H). clear IH H.
    apply groupBy_callback_Some in Hcb as (groupKey & Hk & -> & _).
    pose proof (grouped_count_insert acc groupKey
                  (default [] (acc !! groupKey) ++ [x])) as Hc.
    rewrite length_app in Hc. simpl in Hc. lia.
Qed.

(** X9. When the grouping succeeds nothing is lost and nothing is doubled:
    the groups hold as many elements as the array has. *)
Theorem groupBy_count (array : list A) key groups :
  groupBy property_key array key = Some groups →
  grouped_count groups = length array.
Proof.
  intros H. unfold groupBy in H.
  rewrite (groupBy_reduce_count key array ∅ groups H).
  unfold grouped_count. by rewrite map_to_list_empty.
Qed.

End GroupByFacts.

Lemma groupBy_sample :
  groupBy sample_property_key sample_records "type" = Some sample_groups.
Proof. by vm_compute. Qed.

Lemma groupBy_groups_witness :
  groupBy sample_property_key sample_records "type" = Some sample_groups
  ∧ sample_groups !! "A" = Some [ Some ("A", "un"); Some ("A", "trois") ].
Proof.
  split; [exact groupBy_sample|].
  rewrite (groupBy_groups sample_property_key sample_records "type"
             sample_groups "A" groupBy_sample).
  by vm_compute.
Defined.

Lemma groupBy_count_witness :
  groupBy sample_property_key sample_records "type" = Some sample_groups
  ∧ grouped_count sample_groups = 3%nat.
Proof.
  split; [exact groupBy_sample|].
  exact (groupBy_count sample_property_key sample_records "type"
           sample_groups groupBy_sample).
Defined.

(** Grouping by a property that holds the name of an inherited property
    fails, and so does grouping an array with a [null] in it; elements
    without the property are grouped under "undefined". *)
Example groupBy_samples :
  groupBy sample_property_key [ Some ("toString", "un") ] "type" = None
  ∧ groupBy sample_property_key [ Some ("A", "un"); None ] "type" = None
  ∧ groupBy sample_property_key sample_records "kind"
    = Some {[ "undefined" := sample_records ]}.
Proof. by vm_compute. Qed.

(** ** [generateSlug] *)

(** The code units a slug is made of. *)
Lemma is_space_not_material c :
  is_space c = true → is_lower_or_digit c || is_dash c = false.
Proof.
  unfold is_space. intros H.
  apply orb_true_iff in H as [H|H]; apply bool_decide_eq_true in H.
  - repeat (apply elem_of_cons in H as [->|H]; [by vm_compute|]).
    by apply elem_of_nil in H.
  - unfold is_lower_or_digit, is_dash.
    rewrite !bool_decide_eq_false_2 by lia. done.
Qed.

Lemma slug_unit_not_space c :
  is_lower_or_digit c || is_dash c = true → is_space c = false.
Proof.
  intros H. destruct (is_space c) eqn:Hs; [|done].
  apply is_space_not_material in Hs. congruence.
Qed.

Lemma replace_runs_Forall (P : JsString.code_unit → Prop) class by_ b s :
  Forall P by_ →
  Forall (λ c, class c = false → P c) s →
  Forall P (replace_runs class by_ b s).
Proof.
  intros Hby Hs. revert b. induction Hs as [|c s Hc _ IH]; intros b; simpl.
  - constructor.
  - destruct (class c) eqn:Hcl.
    + apply Forall_app. split; [by destruct b | apply IH].
    + constructor; [by apply Hc | apply IH].
Qed.

Lemma replace_runs_none class by_ s :
  Forall (λ c, class c = false) s →
  ∀ b, replace_runs class by_ b s = s.
Proof.
  induction 1 as [|c s Hc _ IH]; intros b; simpl; [done|].
  by rewrite Hc, IH.
Qed.

Lemma double_dash_cons c1 c2 t :
  double_dash (c1 :: c2 :: t)
  = (is_dash c1 && is_dash c2) || double_dash (c2 :: t).
Proof. reflexivity. Qed.

Lemma replace_runs_in_run_head s c :
  head (replace_runs is_dash (JsString.lit "-") true s) = Some c →
  is_dash c = false.
Proof.
  induction s as [|c1 s IH]; simpl; [done|].
  destruct (is_dash c1) eqn:Hc1; [done|]. simpl. by intros [= <-].
Qed.

Lemma replace_runs_no_double_dash b s :
  double_dash (replace_runs is_dash (JsString.lit "-") b s) = false.
Proof.
  revert b. induction s as [|c s IH]; intros b; [done|].
  cbn [replace_runs]. destruct (is_dash c) eqn:Hc.
  - destruct b; [apply IH|].
    change (JsString.lit "-" ++ ?t) with (45%N :: t).
    pose proof (replace_runs_in_run_head s) as Hhead.
    specialize (IH true).
    destruct (replace_runs is_dash (JsString.lit "-") true s)
      as [|c2 t]; [done|].
    rewrite double_dash_cons, IH, (Hhead c2 eq_refl). done.
  - specialize (IH false).
    destruct (replace_runs is_dash (JsString.lit "-") false s)
      as [|c2 t]; [done|].
    by rewrite double_dash_cons, Hc, IH.
Qed.

Lemma trim_start_no_space s :
  Forall (λ c, is_space c = false) s → trim_start s = s.
Proof. destruct 1 as [|c s Hc _]; simpl; [done|]. by rewrite Hc. Qed.

Lemma trim_no_space s :
  Forall (λ c, is_space c = false) s → trim s = s.
Proof.
  intros H. unfold trim. rewrite (trim_start_no_space s H).
  rewrite trim_start_no_space by (by apply Forall_reverse).
  apply reverse_involutive.
Qed.

Lemma remove_class_none class s :
  Forall (λ c, class c = false) s → remove_class class s = s.
Proof.
  unfold remove_class. induction 1 as [|c s Hc _ IH]; [done|].
  by rewrite filter_cons_True, IH.
Qed.

Lemma replace_runs_dash_fixed s :
  double_dash s = false →
  ∀ b, (b = true → ∀ c, head s = Some c → is_dash c = false) →
       replace_runs is_dash (JsString.lit "-") b s = s.
Proof.
  induction s as [|c s IH]; intros Hdd b Hb; [done|].
  cbn [replace_runs]. destruct (is_dash c) eqn:Hc.
  - destruct b; [by rewrite (Hb eq_refl c eq_refl) in Hc|].
    change (JsString.lit "-" ++ ?t) with (45%N :: t).
    apply bool_decide_eq_true in Hc as ->. f_equal.
    destruct s as [|c2 t]; [done|].
    rewrite double_dash_cons in Hdd. apply orb_false_iff in Hdd as [H1 H2].
    apply IH; [done|]. intros _ c' [= <-].
    by destruct (is_dash c2).
  - f_equal. apply IH; [|done].
    destruct s as [|c2 t]; [done|].
    rewrite double_dash_cons in Hdd. by apply orb_false_iff in Hdd as [_ ?].
Qed.

Lemma slug_unit_not_mark c :
  is_lower_or_digit c || is_dash c = true → is_combining_mark c = false.
Proof.
  unfold is_lower_or_digit, is_dash, is_combining_mark. intros H.
  apply bool_decide_eq_false.
  repeat (apply orb_true_iff in H as [H|H]);
    apply bool_decide_eq_true in H; lia.
Qed.

Lemma slug_unit_material c :
  is_lower_or_digit c || is_dash c = true → not_slug_material c = false.
Proof.
  unfold not_slug_material. intros H. apply negb_false_iff.
  apply orb_true_iff in H as [->| ->]; [done|]. by rewrite orb_true_r.
Qed.

Section SlugFacts.
Context (toLowerCase normalizeNFD :
           list JsString.code_unit → list JsString.code_unit).

Lemma generateSlug_replaced_units string :
  Forall (λ c, is_lower_or_digit c || is_dash c = true)
    (generateSlug_replaced toLowerCase normalizeNFD string).
Proof.
  unfold generateSlug_replaced.
  apply replace_runs_Forall; [by repeat constructor|].
  apply Forall_forall. intros c Hc _. revert c Hc. apply Forall_forall.
  apply replace_runs_Forall; [by repeat constructor|].
  unfold remove_class. apply Forall_forall. intros c Hc Hsp.
  apply list_elem_of_filter in Hc as [Hc _].
  unfold not_slug_material in Hc. apply negb_false_iff in Hc.
  rewrite Hsp, orb_false_r in Hc. done.
Qed.

Lemma trim_after_replacements string :
  trim (generateSlug_replaced toLowerCase normalizeNFD string)
  = generateSlug_replaced toLowerCase normalizeNFD string.
Proof.
  apply trim_no_space.
  eapply Forall_impl; [apply generateSlug_replaced_units|].
  intros c. apply slug_unit_not_space.
Qed.

(** X10. Whatever the text, its slug is made of the letters a to z, digits
    and dashes only, and no two dashes stand side by side. *)
Theorem generateSlug_alphabet string :
  Forall (λ c, is_lower_or_digit c || is_dash c = true)
    (generateSlug toLowerCase normalizeNFD string)
  ∧ double_dash (generateSlug toLowerCase normalizeNFD string) = false.
Proof.
  unfold generateSlug.
  pose proof (generateSlug_replaced_units string) as Hu.
  rewrite trim_no_space.
  - split; [done|]. apply replace_runs_no_double_dash.
  - eapply Forall_impl; [exact Hu|]. intros c. apply slug_unit_not_space.
Qed.

(** X11. The final [trim] never removes anything: white space has become
    dashes before it runs, so the slug is what the four replacements
    leave, and it holds no white space. *)
Theorem generateSlug_trim_idle string :
  generateSlug toLowerCase normalizeNFD string
  = generateSlug_replaced toLowerCase normalizeNFD string
  ∧ Forall (λ c, is_space c = false)
      (generateSlug toLowerCase normalizeNFD string).
Proof.
  unfold generateSlug. rewrite trim_after_replacements. split; [done|].
  eapply Forall_impl; [apply generateSlug_replaced_units|].
  intros c. apply slug_unit_not_space.
Qed.

(** X12. The slug of a slug is that slug, on a platform whose [toLowerCase]
    and [normalize] leave strings of lower-case letters, digits and dashes
    as they are. *)
Theorem generateSlug_idempotent string :
  (∀ t, Forall (λ c, is_lower_or_digit c || is_dash c = true) t →
        toLowerCase t = t ∧ normalizeNFD t = t) →
  generateSlug toLowerCase normalizeNFD
    (generateSlug toLowerCase normalizeNFD string)
  = generateSlug toLowerCase normalizeNFD string.
Proof.
  intros Hfix. unfold generateSlug.
  rewrite (trim_after_replacements string), trim_after_replacements.
  pose proof (generateSlug_replaced_units string) as Hu.
  pose proof (replace_runs_no_double_dash false
    (replace_runs is_space (JsString.lit "-") false
       (remove_class not_slug_material
          (remove_class is_combining_mark
             (normalizeNFD (toLowerCase string)))))) as Hdd.
  fold (generateSlug_replaced toLowerCase normalizeNFD string) in Hdd.
  set (slug := generateSlug_replaced toLowerCase normalizeNFD string) in *.
  unfold generateSlug_replaced at 1.
  destruct (Hfix slug Hu) as [Hl Hn]. rewrite Hl, Hn.
  rewrite (remove_class_none is_combining_mark)
    by (eapply Forall_impl; [exact Hu|]; intros c; apply slug_unit_not_mark).
  rewrite (remove_class_none not_slug_material)
    by (eapply Forall_impl; [exact Hu|]; intros c; apply slug_unit_material).
  rewrite (replace_runs_none is_space)
    by (eapply Forall_impl; [exact Hu|]; intros c; apply slug_unit_not_space).
  by apply replace_runs_dash_fixed.
Qed.

(** X13. White space at the start of the text, once lower-cased and
    normalised, leaves a dash at the start of the slug. *)
Theorem generateSlug_leading_dash string c rest :
  normalizeNFD (toLowerCase string) = c :: rest →
  is_space c = true →
  head (generateSlug toLowerCase normalizeNFD string) = Some 45%N.
Proof.
  intros Hn Hc. unfold generateSlug. rewrite trim_after_replacements.
  unfold generateSlug_replaced. rewrite Hn.
  pose proof (is_space_not_material c Hc) as Hm.
  assert (Hmark : is_combining_mark c = false).
  { unfold is_space in Hc. unfold is_combining_mark.
    apply bool_decide_eq_false.
    apply orb_true_iff in Hc as [H|H]; apply bool_decide_eq_true in H.
    - repeat (apply elem_of_cons in H as [->|H]; [lia|]).
      by apply elem_of_nil in H.
    - lia. }
  unfold remove_class.
  rewrite filter_cons_True by done.
  rewrite filter_cons_True
    by (unfold not_slug_material; apply negb_false_iff;
        rewrite Hc; apply orb_true_iff; left; apply orb_true_r).
  cbn [replace_runs]. rewrite Hc. done.
Qed.

End SlugFacts.

Lemma ascii_toLowerCase_fixes_slugs t :
  Forall (λ c, is_lower_or_digit c || is_dash c = true) t →
  ascii_toLowerCase t = t.
Proof.
  unfold ascii_toLowerCase. induction 1 as [|c t Hc _ IH]; [done|].
  rewrite fmap_cons, IH. f_equal.
  rewrite bool_decide_eq_false_2; [done|].
  unfold is_lower_or_digit, is_dash in Hc.
  repeat (apply orb_true_iff in Hc as [Hc|Hc]);
    apply bool_decide_eq_true in Hc; lia.
Qed.

Lemma generateSlug_idempotent_witness :
  generateSlug ascii_toLowerCase id
    (generateSlug ascii_toLowerCase id
       (JsString.lit "Voici un Titre d'Article!"))
  = generateSlug ascii_toLowerCase id
      (JsString.lit "Voici un Titre d'Article!").
Proof.
  apply (generateSlug_idempotent ascii_toLowerCase id).
  intros t Ht. split; [by apply ascii_toLowerCase_fixes_slugs | done].
Defined.

Lemma generateSlug_leading_dash_witness :
  head (generateSlug ascii_toLowerCase id (JsString.lit " Bonjour "))
  = Some 45%N.
Proof.
  apply (generateSlug_leading_dash ascii_toLowerCase id _ 32%N
           (JsString.lit "bonjour ")).
  - by vm_compute.
  - by vm_compute.
Defined.

(** The source's usage example, line 184: the apostrophe goes without
    leaving a dash. *)
Example generateSlug_usage :
  generateSlug ascii_toLowerCase id (JsString.lit "Voici un Titre d'Article!")
  = JsString.lit "voici-un-titre-darticle"
  ∧ generateSlug ascii_toLowerCase id (JsString.lit " Bonjour ")
    = JsString.lit "-bonjour-".
Proof. by vm_compute. Qed.

(** ** More on [truncateText] *)

Lemma substring_empty s n : n ≤ 0 → JsString.substring s 0 n = [].
Proof.
  intros Hn. unfold JsString.substring, JsString.clamp, JsString.length.
  cbv zeta.
  replace (Z.min (Z.max 0 0) (Z.of_nat (length s))) with 0 by lia.
  replace (Z.min (Z.max n 0) (Z.of_nat (length s))) with 0 by lia.
  reflexivity.
Qed.

(** X14. A suffix longer than [maxLength] (as every suffix is when [maxLength]
    is negative) takes the place of the whole of a text that does not fit:
    the result is the suffix alone, longer than [maxLength]. *)
Theorem truncateText_oversized_suffix text maxLength suffix :
  maxLength < JsString.length (default default_suffix suffix) →
  maxLength < JsString.length text →
  truncateText text maxLength suffix = default default_suffix suffix.
Proof.
  intros Hsfx Htext. unfold truncateText.
  rewrite decide_False by lia. by rewrite substring_empty by lia.
Qed.

Lemma truncateText_oversized_suffix_witness :
  truncateText example_text 2 None = JsString.lit "...".
Proof.
  apply (truncateText_oversized_suffix example_text 2 None).
  - by vm_compute.
  - by vm_compute.
Defined.

Lemma truncateText_fits text maxLength suffix :
  JsString.length text ≤ maxLength →
  truncateText text maxLength suffix = text.
Proof. intros H. unfold truncateText. cbv zeta. by rewrite decide_True. Qed.

Lemma truncateText_cut text maxLength suffix :
  JsString.length (default default_suffix suffix) ≤ maxLength →
  maxLength < JsString.length text →
  truncateText text maxLength suffix
  = take (Z.to_nat (maxLength - JsString.length (default default_suffix suffix)))
      text
    ++ default default_suffix suffix.
Proof.
  intros Hsfx Hlong. unfold truncateText. cbv zeta.
  rewrite decide_False by lia.
  rewrite substring_prefix; [done|]. unfold JsString.length in *. lia.
Qed.

(** X15. Truncating what has been truncated changes nothing, the suffix being
    no longer than [maxLength]. *)
Theorem truncateText_idempotent text maxLength suffix :
  JsString.length (default default_suffix suffix) ≤ maxLength →
  truncateText (truncateText text maxLength suffix) maxLength suffix
  = truncateText text maxLength suffix.
Proof.
  intros Hsfx. apply truncateText_fits.
  destruct (decide (JsString.length text ≤ maxLength)) as [Hfit|Hlong].
  - by rewrite truncateText_fits.
  - rewrite truncateText_cut by lia.
    unfold JsString.length in *. rewrite length_app, length_take. lia.
Qed.

Lemma truncateText_idempotent_witness :
  truncateText (truncateText example_text 10 None) 10 None
  = truncateText example_text 10 None.
Proof.
  apply (truncateText_idempotent example_text 10 None). by vm_compute.
Defined.

(** ** More on [generateUniqueId] *)




(** ** More on [shuffleArray] *)








(** ** More on [fetchWithTimeout] *)

(** X18. The outcome is final: whatever the event loop delivers after the
    function has returned or thrown, the outcome stays what it is. *)
Theorem outcome_is_final url options timeout evs later p o :
  outcome (fetchWithTimeout url options timeout evs p) = Some o →
  outcome (fetchWithTimeout url options timeout (evs ++ later) p) = Some o.
Proof.
  unfold fetchWithTimeout. rewrite run_app.
  set (st := run evs _). intros Ho.
  assert (Hc : consistent st) by apply consistent_run, consistent_start.
  assert (Hs : status st = Settled o).
  { unfold outcome in Ho. destruct (status st); by simplify_eq. }
  destruct (settled_run later st o Hc Hs) as [Hs' _].
  unfold outcome. by rewrite Hs'.
Qed.

Lemma outcome_is_final_witness :
  outcome (fetchWithTimeout sample_url None (Some 100)
             ([Elapse 50; Fulfil (VObject 200)]
              ++ [Elapse 50; TimerDue; Reject network_error])
             sample_platform)
  = Some (Returned (VObject 200)).
Proof.
  apply (outcome_is_final sample_url None (Some 100)
           [Elapse 50; Fulfil (VObject 200)]).
  by vm_compute.
Defined.

Lemma fired_when_due_step st ev :
  (timer st = Fired → timer_delay st ≤ now st) →
  timer (step st ev) = Fired →
  timer_delay (step st ev) ≤ now (step st ev).
Proof.
  intros Hinv. destruct ev as [ms| |response|reason]; unfold step.
  - simpl. intros H. specialize (Hinv H). lia.
  - unfold timer_ready. destruct (timer st) eqn:Ht; simpl;
      repeat case_bool_decide; simpl; rewrite ?Ht; try done;
      try (intros _; by apply Hinv).
  - destruct (status st); [|done]. simpl.
    destruct (timer st); try done; try (intros _; by apply Hinv).
  - destruct (status st); [|done].
    unfold alloc_error, resume_rejected. simpl.
    case_decide; simpl; destruct (timer st); try done;
      try (intros _; by apply Hinv).
Qed.

Lemma fired_when_due_run evs st :
  (timer st = Fired → timer_delay st ≤ now st) →
  timer (run evs st) = Fired →
  timer_delay (run evs st) ≤ now (run evs st).
Proof.
  revert st. induction evs as [|ev evs IH]; intros st Hinv; [done|].
  apply IH. by apply fired_when_due_step.
Qed.

(** X19. The request is never cancelled twice, nor early: in every
    invocation at most one abort signal is sent; and with a timeout
    (5000 ms when the caller gave none) that [setTimeout] takes as it is,
    being no more than 2^31 - 1, the time elapsed since the call is at
    least the timeout when a signal has been sent. *)
Theorem abort_only_after_timeout url options timeout evs p :
  default 5000 timeout ≤ 2147483647 →
  let st := fetchWithTimeout url options timeout evs p in
  (abort_signals st ≤ 1)%nat
  ∧ (aborted st = true → default 5000 timeout ≤ now st).
Proof.
  intros _ st.
  pose proof (consistent_fetchWithTimeout url options timeout evs p) as Hc.
  fold st in Hc. destruct Hc as [_ Hc].
  split.
  - destruct (status st), (timer st); try done; destruct Hc; lia.
  - intros Hab.
    assert (Hf : timer st = Fired).
    { unfold aborted in Hab. apply bool_decide_eq_true in Hab.
      destruct (status st), (timer st); try done; destruct Hc; lia. }
    pose proof (fired_when_due_run evs
      (fetchWithTimeout_start url options timeout p)) as Hdue.
    destruct (run_frame evs (fetchWithTimeout_start url options timeout p))
      as (_ & _ & _ & Hdelay).
    fold (fetchWithTimeout url options timeout evs p) in Hdue, Hdelay.
    fold st in Hdue, Hdelay. rewrite Hdelay in Hdue. simpl in Hdue.
    by apply Hdue.
Qed.

Lemma abort_only_after_timeout_witness :
  100 ≤ now (fetchWithTimeout sample_url None (Some 100) observed_abort
               sample_platform).
Proof.
  apply (abort_only_after_timeout sample_url None (Some 100) observed_abort
           sample_platform).
  - simpl. lia.
  - by vm_compute.
Defined.

(** Where an outcome comes from, seen from a state [st] on. *)
Lemma outcome_source evs st :
  consistent st → status st = Awaiting →
  match outcome (run evs st) with
  | None => True
  | Some (Returned response) => Fulfil response ∈ evs
  | Some (ThrewTimeout l) =>
      errors (platform (run evs st)) !! l = Some timeout_error
      ∧ ∃ reason, Reject reason ∈ evs ∧ name reason = "AbortError"
  | Some (Rethrew l) =>
      ∃ reason, Reject reason ∈ evs ∧ name reason ≠ "AbortError"
                ∧ errors (platform (run evs st)) !! l = Some reason
  end.
Proof.
  revert st. induction evs as [|ev evs IH]; intros st Hc Hs.
  { unfold outcome. simpl. by rewrite Hs. }
  change (run (ev :: evs) st) with (run evs (step st ev)).
  pose proof (consistent_step st ev Hc) as Hc'.
  assert (Hlater : status (step st ev) = Awaiting →
    match outcome (run evs (step st ev)) with
    | None => True
    | Some (Returned response) => Fulfil response ∈ ev :: evs
    | Some (ThrewTimeout l) =>
        errors (platform (run evs (step st ev))) !! l = Some timeout_error
        ∧ ∃ reason, Reject reason ∈ ev :: evs ∧ name reason = "AbortError"
    | Some (Rethrew l) =>
        ∃ reason, Reject reason ∈ ev :: evs ∧ name reason ≠ "AbortError"
                  ∧ errors (platform (run evs (step st ev))) !! l
                    = Some reason
    end).
  { intros Hs'. specialize (IH _ Hc' Hs').
    destruct (outcome (run evs (step st ev))) as [[r|l|l]|]; [| | |done].
    - by right.
    - destruct IH as [? (reason & ? & ?)]. split; [done|].
      exists reason. split; [by right | done].
    - destruct IH as (reason & ? & ? & ?).
      exists reason. split; [by right | done]. }
  destruct ev as [ms| |response|reason].
  - by apply Hlater.
  - apply Hlater. unfold step. by destruct (timer_ready st).
  - rewrite step_Fulfil in * by done.
    destruct (settled_run evs _ (Returned response) Hc' eq_refl) as [R1 _].
    unfold outcome. rewrite R1. by left.
  - destruct (step_Reject st reason Hs) as [Hnew Hstep]. cbn zeta in Hstep.
    unfold abort_error in Hstep. case_bool_decide as Hname.
    + destruct (settled_run evs _ _ Hc' ltac:(by rewrite Hstep))
        as (R1 & R2 & _).
      unfold outcome. rewrite R1, R2, Hstep. simpl.
      split; [by rewrite lookup_insert_eq|].
      exists reason. split; [by left | done].
    + destruct (settled_run evs _ _ Hc' ltac:(by rewrite Hstep))
        as (R1 & R2 & _).
      unfold outcome. rewrite R1, R2, Hstep. simpl.
      exists reason. split; [by left|]. split; [done|].
      by rewrite lookup_insert_eq.
Qed.


(** X21. Without a settlement by the transport there is no outcome, timer or
    not. *)
Theorem suspended_without_transport url options timeout evs p :
  (∀ ev, ev ∈ evs → ∃ ms, ev = Elapse ms ∨ ev = TimerDue) →
  outcome (fetchWithTimeout url options timeout evs p) = None.
Proof.
  intros Hevs.
  pose proof (outcome_source evs (fetchWithTimeout_start url options timeout p)
                (consistent_start url options timeout p) eq_refl) as H.
  fold (fetchWithTimeout url options timeout evs p) in H.
  destruct (outcome (fetchWithTimeout url options timeout evs p))
    as [[r|l|l]|]; [| | |done].
  - destruct (Hevs _ H) as (ms & [?|?]); done.
  - destruct H as [_ (reason & H & _)].
    destruct (Hevs _ H) as (ms & [?|?]); done.
  - destruct H as (reason & H & _).
    destruct (Hevs _ H) as (ms & [?|?]); done.
Qed.

Lemma suspended_without_transport_witness :
  outcome (fetchWithTimeout sample_url None (Some 100)
             [Elapse 100; TimerDue; Elapse 100000] sample_platform)
  = None.
Proof.
  apply (suspended_without_transport sample_url None (Some 100)
           [Elapse 100; TimerDue; Elapse 100000] sample_platform).
  intros ev Hev.
  repeat (apply elem_of_cons in Hev as [->|Hev];
          [first [by eexists; left | by exists 0%N; right]|]).
  by apply elem_of_nil in Hev.
Defined.

Lemma errors_grow_step st ev :
  errors (platform st) ⊆ errors (platform (step st ev))
  ∧ (status (step st ev) = Awaiting →
     errors (platform (step st ev)) = errors (platform st))
  ∧ (status st = Awaiting →
     size (errors (platform (step st ev)))
     ≤ size (errors (platform st)) + 2)%nat.
Proof.
  destruct ev as [ms| |response|reason].
  - simpl. split; [done|]. split; [done|lia].
  - unfold step. destruct (timer_ready st); simpl; (split; [done|]);
      (split; [done|lia]).
  - unfold step. destruct (status st); simpl; (split; [done|]);
      (split; [done|lia]).
  - destruct (status st) eqn:Hs.
    2:{ unfold step. rewrite Hs. split; [done|]. split; [done|lia]. }
    destruct (step_Reject st reason Hs) as [Hnew Hstep]. cbn zeta in Hstep.
    rewrite Hstep. clear Hstep.
    destruct (abort_error reason); simpl.
    + pose proof (is_fresh
        (dom (<[fresh (dom (errors (platform st))) := reason]>
                (errors (platform st))))) as Hnew2.
      apply not_elem_of_dom in Hnew2.
      split; [|split; [done|]].
      * etrans; [|by apply insert_subseteq]. by apply insert_subseteq.
      * intros _. rewrite !map_size_insert_None by done. lia.
    + split; [by apply insert_subseteq|]. split; [done|].
      intros _. rewrite map_size_insert_None by done. lia.
Qed.

Lemma errors_grow_run evs st :
  consistent st →
  errors (platform st) ⊆ errors (platform (run evs st))
  ∧ (status st = Awaiting →
     size (errors (platform (run evs st)))
     ≤ size (errors (platform st)) + 2)%nat.
Proof.
  revert st. induction evs as [|ev evs IH]; intros st Hc.
  { split; [done|]. simpl. lia. }
  change (run (ev :: evs) st) with (run evs (step st ev)).
  pose proof (consistent_step st ev Hc) as Hc'.
  destruct (errors_grow_step st ev) as (Hsub & Hsame & Hsize).
  destruct (IH _ Hc') as [IHsub IHsize].
  split; [by etrans|]. intros Hs.
  destruct (status (step st ev)) as [|o] eqn:Hs'.
  - rewrite <- (Hsame eq_refl). by apply IHsize.
  - destruct (settled_run evs _ o Hc' Hs') as (_ & -> & _). by apply Hsize.
Qed.

(** X22. The error objects that exist when the function is called are still
    there, and unchanged, at any later point of the invocation; to them an
    invocation adds two objects at most (the reason of a rejection and the
    timeout error). *)
Theorem errors_preserved url options timeout evs p :
  let st := fetchWithTimeout url options timeout evs p in
  errors p ⊆ errors (platform st)
  ∧ (size (errors (platform st)) ≤ size (errors p) + 2)%nat.
Proof.
  intros st. subst st. unfold fetchWithTimeout.
  destruct (errors_grow_run evs (fetchWithTimeout_start url options timeout p)
              (consistent_start url options timeout p)) as [Hsub Hsize].
  split; [exact Hsub | by apply Hsize].
Qed.
